(** * Dungeon game server: rooms, turns and the game master

    A shallow embedding of the socket.io game server (the memory-aware
    draft, src/unnamed/part_001, and the baseline draft, src/app/index.js)
    together with the properties of its turn-state machine, room registry,
    narration adapter and memory summarizer.

    The server process is a record of its module-level state (the [rooms]
    registry, the room objects, the socket objects, [connectedSockets],
    [connectedUsers], the pending timers) and of what it sent out.  Every
    socket handler and every timer callback is a function on that record.
    A handler run is one step of the transition system: events are not
    interleaved at its [await]s, and what the language model, the image
    service and the clock answered during the run is an input of the step.
    A handler that throws stops where it threw and keeps the changes made
    so far. *)

From stdpp Require Import base gmap list strings pretty.
From Stdlib Require Import ZArith NArith Lia.

Open Scope Z_scope.

(* ===================================================================== *)
(** ** JavaScript strings

    A JavaScript string is a sequence of UTF-16 code units; [length],
    [slice], [substring] and [includes] all count code units.  Literals of
    the source are written as UTF-8 text and decoded by [js]. *)
(* ===================================================================== *)

Module JS.

Abbreviation jsstring := (list N).

Definition bytes_of (s : string) : list N :=
  (λ c : Ascii.ascii, Ascii.N_of_ascii c) <$> String.list_ascii_of_string s.

(** UTF-8 decoding to code points: [need] continuation bytes are still
    expected for the code point accumulated in [acc]. *)
Fixpoint utf8_decode (need : nat) (acc : N) (bs : list N) : list N :=
  match bs with
  | [] => []
  | b :: bs' =>
      match need with
      | O =>
          if (b <? 128)%N then b :: utf8_decode 0 0%N bs'
          else if (b <? 224)%N then utf8_decode 1 (N.land b 31) bs'
          else if (b <? 240)%N then utf8_decode 2 (N.land b 15) bs'
          else utf8_decode 3 (N.land b 7) bs'
      | S O => (acc * 64 + N.land b 63)%N :: utf8_decode 0 0%N bs'
      | S n => utf8_decode n (acc * 64 + N.land b 63)%N bs'
      end
  end.

(** UTF-16 encoding of one code point. *)
Definition utf16_units (cp : N) : list N :=
  if (cp <? 65536)%N then [cp]
  else let v := (cp - 65536)%N in
       [(55296 + N.shiftr v 10)%N; (56320 + N.land v 1023)%N].

Definition js (s : string) : jsstring :=
  utf8_decode 0 0%N (bytes_of s) ≫= utf16_units.

(** [String.prototype.slice(0, n)] and [substring(0, n)] for [n >= 0]. *)
Definition slice0 (n : nat) (s : jsstring) : jsstring := take n s.

(** [Array.prototype.slice(-k)]: the last [k] elements. *)
Definition lastN {A} (k : nat) (l : list A) : list A :=
  drop (length l - k) l.

(** [Array.prototype.join(sep)] on an array of strings. *)
Fixpoint join (sep : jsstring) (l : list jsstring) : jsstring :=
  match l with
  | [] => []
  | [x] => x
  | x :: rest => x ++ sep ++ join sep rest
  end.

Fixpoint startsWith (pat s : jsstring) : bool :=
  match pat, s with
  | [], _ => true
  | _ :: _, [] => false
  | p :: pat', c :: s' => if decide (p = c) then startsWith pat' s' else false
  end.

(** [String.prototype.includes(pat)]. *)
Fixpoint includes (s pat : jsstring) : bool :=
  startsWith pat s ||
  match s with
  | [] => false
  | _ :: s' => includes s' pat
  end.

(** [String.prototype.toLowerCase] on one code unit.  The basic Latin and
    Cyrillic capitals are mapped to their small letters; other code units
    are kept.  (No character outside A-Z lower-cases to a letter of the
    ASCII alphabet other than i and k, so the search for a marker made of
    the letters c, e, l, m, o, p, t, v and the space is not affected by
    what happens outside these ranges.) *)
Definition lowerUnit (c : N) : N :=
  if ((65 <=? c) && (c <=? 90))%N then (c + 32)%N
  else if ((1040 <=? c) && (c <=? 1071))%N then (c + 32)%N
  else if ((1024 <=? c) && (c <=? 1039))%N then (c + 80)%N
  else c.

Definition toLowerCase (s : jsstring) : jsstring := lowerUnit <$> s.

(** White space and line terminators removed by [String.prototype.trim]. *)
Definition isSpace (c : N) : bool :=
  bool_decide (c ∈ [9; 10; 11; 12; 13; 32; 160; 5760; 8232; 8233; 8239;
                    8287; 12288; 65279]%N)
  || ((8192 <=? c) && (c <=? 8202))%N.

Fixpoint trimStart (s : jsstring) : jsstring :=
  match s with
  | c :: s' => if isSpace c then trimStart s' else s
  | [] => []
  end.

Definition trim (s : jsstring) : jsstring :=
  reverse (trimStart (reverse (trimStart s))).

(** Decimal rendering of an integer, as in a template literal. *)
Definition decimal (z : Z) : jsstring := bytes_of (pretty z).

(** Truthiness of a value that is a string or [undefined]. *)
Definition truthy (v : option jsstring) : bool :=
  match v with
  | Some (_ :: _) => true
  | _ => false
  end.

(** String conversion of such a value inside a template literal. *)
Definition toString (v : option jsstring) : jsstring :=
  match v with
  | Some s => s
  | None => js "undefined"
  end.

(** [a || b] on strings. *)
Definition orElse (a b : jsstring) : jsstring :=
  match a with
  | [] => b
  | _ => a
  end.

(** [n++] on a number that holds an integer.  A JavaScript number is an
    IEEE 754 double: integers are exact up to 2^53, and 2^53 + 1 is not a
    double and rounds back to 2^53.  (A counter that starts at 1 and only
    moves by [++] never gets beyond 2^53, where it stays.) *)
Definition increment (n : Z) : Z :=
  if n <? 9007199254740992 then n + 1 else n.

End JS.

Import JS.


(* ===================================================================== *)
(** ** Data model *)
(* ===================================================================== *)

(** The two server drafts under study.  [Baseline] is src/app/index.js;
    [MemoryAware] is the later draft with level goals and game memory. *)
Inductive Draft := Baseline | MemoryAware.

(** Deployment configuration: the draft that runs and [process.env]. *)
Record Config := {
  draft : Draft;
  env_DEBUG_MODE : bool;          (* process.env.DEBUG_MODE === 'true' *)
  FAST_DEBUG : bool;              (* process.env.FAST_DEBUG === 'true' *)
  DOMAIN : option jsstring        (* process.env.DOMAIN *)
}.

(** [const DEBUG_MODE = process.env.DEBUG_MODE === 'true' || ...] *)
Definition DEBUG_MODE (cfg : Config) : bool :=
  match draft cfg with
  | Baseline => env_DEBUG_MODE cfg || true
  | MemoryAware => env_DEBUG_MODE cfg || false
  end.

Definition getRequiredPlayersCount (cfg : Config) : Z :=
  if DEBUG_MODE cfg then 1 else 3.

(** [state.turn]: the string 'gm' or a number. *)
Inductive Turn := GmTurnNow | PlayerNo (n : Z).

Module Mem.
Record Entry := { level : Z; summary : jsstring; timestamp : Z }.
End Mem.

Record State := {
  level : Z;
  turn : Turn;
  history : list jsstring;
  levelGoals : gmap Z jsstring;
  gameMemory : list Mem.Entry;
  levelMemory : jsstring
}.

(** A room object.  [players] holds the seated socket objects, named by
    their connection ids; [timeout] is the handle of the waiting timer. *)
Record Room := {
  players : list jsstring;
  state : State;
  timeout : option nat
}.

(** The mutable fields the server keeps on a socket object.  Room ids
    are strings, as the bundled clients send them (a URL parameter, or the
    id handed out by ['createRoom']). *)
Record Socket := {
  username : option jsstring;
  roomId : option jsstring;
  connected : bool
}.

(** Events sent to clients. *)
Inductive Payload :=
| RoomCreated (roomId : jsstring)
| PlayersUpdate (playerNames : list jsstring)
| GameStart (text image : jsstring)
| GmUpdate (text image : jsstring)
| SayMessage (from : option jsstring) (text : jsstring)
| PlayerTurn (n : Z)
| GmTurn
| PlayerLeft (username : jsstring)
| LevelComplete (level : Z) (goal : option jsstring)
| GameEnd
| Error (message : jsstring).

(** [socket.emit] reaches one connection, [io.to(roomId).emit] a room. *)
Inductive Target := ToSocket (id : jsstring) | ToRoom (roomId : jsstring).

#[global] Instance Payload_eq_dec : EqDecision Payload.
Proof. solve_decision. Defined.

#[global] Instance Target_eq_dec : EqDecision Target.
Proof. solve_decision. Defined.

(** Outbound requests to the third-party services: a chat completion
    (token limit and user message) or a text-to-image call. *)
Inductive NetCall :=
| ChatCompletion (max_tokens : Z) (userMessage : jsstring)
| TextToImage (inputs : jsstring).

(** What a chat-completion request came back with: the request failed, or
    an HTTP response arrived whose [ok] flag and whose
    [choices[0].message.content] (when it is a string) are given. *)
Inductive ChatOutcome :=
| RequestFailed
| HttpResponse (ok : bool) (content : option jsstring).

Inductive ImageOutcome := ImageSaved | ImageFailed.

(** The outside world as seen by one handler run: the outcome of each
    service call it may make and the values of [Date.now()]. *)
Record Oracle := {
  goalReply : ChatOutcome;
  summaryReply : ChatOutcome;
  compressReply : ChatOutcome;
  narrationReply : ChatOutcome;
  imageReply : ImageOutcome;
  summaryNow : Z;
  compressNow : Z;
  imageNow : Z
}.

(** Pending [setTimeout] callbacks.  The narration pass closes over the
    room id and the room object; the waiting timer over the room id. *)
Inductive Timer :=
| GmPass (roomId : jsstring) (room : nat)
| JoinTimeout (roomId : jsstring).

(** The server process: the registry [rooms] (room id to room object),
    the store of room objects, the socket objects, the two connection
    registries, the pending timers and the logs of emitted events and
    outbound requests. *)
Record World := {
  rooms : gmap jsstring nat;
  heap : list Room;
  socks : gmap jsstring Socket;
  connectedSockets : gset jsstring;
  connectedUsers : list (option jsstring * jsstring);
  timers : gmap nat Timer;
  nextTimer : nat;
  out : list (Target * Payload);
  net : list NetCall
}.

Definition emptyWorld : World :=
  {| rooms := ∅; heap := []; socks := ∅; connectedSockets := ∅;
     connectedUsers := []; timers := ∅; nextTimer := 0%nat;
     out := []; net := [] |}.

(** *** Field updates *)

Definition set_level (v : Z) (s : State) : State :=
  {| level := v; turn := turn s; history := history s;
     levelGoals := levelGoals s; gameMemory := gameMemory s;
     levelMemory := levelMemory s |}.
Definition set_turn (v : Turn) (s : State) : State :=
  {| level := level s; turn := v; history := history s;
     levelGoals := levelGoals s; gameMemory := gameMemory s;
     levelMemory := levelMemory s |}.
Definition set_history (v : list jsstring) (s : State) : State :=
  {| level := level s; turn := turn s; history := v;
     levelGoals := levelGoals s; gameMemory := gameMemory s;
     levelMemory := levelMemory s |}.
Definition set_levelGoals (v : gmap Z jsstring) (s : State) : State :=
  {| level := level s; turn := turn s; history := history s;
     levelGoals := v; gameMemory := gameMemory s;
     levelMemory := levelMemory s |}.
Definition set_gameMemory (v : list Mem.Entry) (s : State) : State :=
  {| level := level s; turn := turn s; history := history s;
     levelGoals := levelGoals s; gameMemory := v;
     levelMemory := levelMemory s |}.
Definition set_levelMemory (v : jsstring) (s : State) : State :=
  {| level := level s; turn := turn s; history := history s;
     levelGoals := levelGoals s; gameMemory := gameMemory s;
     levelMemory := v |}.

Definition set_players (v : list jsstring) (r : Room) : Room :=
  {| players := v; state := state r; timeout := timeout r |}.
Definition set_state (v : State) (r : Room) : Room :=
  {| players := players r; state := v; timeout := timeout r |}.
Definition set_timeout (v : option nat) (r : Room) : Room :=
  {| players := players r; state := state r; timeout := v |}.

Definition set_rooms (v : gmap jsstring nat) (w : World) : World :=
  {| rooms := v; heap := heap w; socks := socks w;
     connectedSockets := connectedSockets w;
     connectedUsers := connectedUsers w; timers := timers w;
     nextTimer := nextTimer w; out := out w; net := net w |}.
Definition set_heap (v : list Room) (w : World) : World :=
  {| rooms := rooms w; heap := v; socks := socks w;
     connectedSockets := connectedSockets w;
     connectedUsers := connectedUsers w; timers := timers w;
     nextTimer := nextTimer w; out := out w; net := net w |}.
Definition set_socks (v : gmap jsstring Socket) (w : World) : World :=
  {| rooms := rooms w; heap := heap w; socks := v;
     connectedSockets := connectedSockets w;
     connectedUsers := connectedUsers w; timers := timers w;
     nextTimer := nextTimer w; out := out w; net := net w |}.
Definition set_connectedSockets (v : gset jsstring) (w : World) : World :=
  {| rooms := rooms w; heap := heap w; socks := socks w;
     connectedSockets := v;
     connectedUsers := connectedUsers w; timers := timers w;
     nextTimer := nextTimer w; out := out w; net := net w |}.
Definition set_connectedUsers (v : list (option jsstring * jsstring))
    (w : World) : World :=
  {| rooms := rooms w; heap := heap w; socks := socks w;
     connectedSockets := connectedSockets w;
     connectedUsers := v; timers := timers w;
     nextTimer := nextTimer w; out := out w; net := net w |}.
Definition set_timers (v : gmap nat Timer) (n : nat) (w : World) : World :=
  {| rooms := rooms w; heap := heap w; socks := socks w;
     connectedSockets := connectedSockets w;
     connectedUsers := connectedUsers w; timers := v;
     nextTimer := n; out := out w; net := net w |}.

(** [target.emit(payload)] *)
Definition emit (t : Target) (p : Payload) (w : World) : World :=
  {| rooms := rooms w; heap := heap w; socks := socks w;
     connectedSockets := connectedSockets w;
     connectedUsers := connectedUsers w; timers := timers w;
     nextTimer := nextTimer w; out := out w ++ [(t, p)]; net := net w |}.

(** Record the outbound requests a service adapter made. *)
Definition request (calls : list NetCall) (w : World) : World :=
  {| rooms := rooms w; heap := heap w; socks := socks w;
     connectedSockets := connectedSockets w;
     connectedUsers := connectedUsers w; timers := timers w;
     nextTimer := nextTimer w; out := out w; net := net w ++ calls |}.

(** [rooms[roomId]]: the room object registered under an id. *)
Definition room_at (w : World) (rid : jsstring) : option (nat * Room) :=
  match rooms w !! rid with
  | Some a =>
      match heap w !! a with
      | Some r => Some (a, r)
      | None => None
      end
  | None => None
  end.

(** In-place update of a room object. *)
Definition update_room (a : nat) (f : Room → Room) (w : World) : World :=
  match heap w !! a with
  | Some r => set_heap (<[a := f r]> (heap w)) w
  | None => w
  end.

(** [rooms[roomId] = { players: [socket], state: { ... } }] *)
Definition newRoom (id : jsstring) : Room :=
  {| players := [id];
     state := {| level := 1; turn := GmTurnNow; history := [];
                 levelGoals := ∅; gameMemory := []; levelMemory := [] |};
     timeout := None |}.

Definition register_room (rid : jsstring) (r : Room) (w : World) : World :=
  set_rooms (<[rid := length (heap w)]> (rooms w)) (set_heap (heap w ++ [r]) w).

(** [setTimeout(callback, ms)]: returns the handle of the new timer. *)
Definition setTimeout (t : Timer) (w : World) : nat * World :=
  (nextTimer w, set_timers (<[nextTimer w := t]> (timers w)) (S (nextTimer w)) w).

Definition clearTimeout (h : nat) (w : World) : World :=
  set_timers (delete h (timers w)) (nextTimer w) w.

(** [players.findIndex(s => s.id === id)], -1 when absent. *)
Fixpoint findIndex (id : jsstring) (ps : list jsstring) : Z :=
  match ps with
  | [] => -1
  | p :: ps' =>
      if decide (p = id) then 0
      else let i := findIndex id ps' in if i <? 0 then -1 else i + 1
  end.

(** [players.some(p => p.id === id)] *)
Definition seated (id : jsstring) (ps : list jsstring) : bool :=
  bool_decide (id ∈ ps).

(** [players.splice(index, 1)] for the index found by [findIndex]. *)
Fixpoint removeFirst (id : jsstring) (ps : list jsstring) : list jsstring :=
  match ps with
  | [] => []
  | p :: ps' => if decide (p = id) then ps' else p :: removeFirst id ps'
  end.

(** [players.map(p => p.username).filter(Boolean)]: the names are read
    from the socket objects as they are now. *)
Definition playerNames (w : World) (ps : list jsstring) : list jsstring :=
  omap (λ id, match socks w !! id with
              | Some s => if truthy (username s) then username s else None
              | None => None
              end) ps.

(* ===================================================================== *)
(** ** Service adapters *)
(* ===================================================================== *)

Definition newline : jsstring := [10%N].

(** [fetchMistral(messages)]: the trimmed content, or the empty string on
    any failure (the [ok] flag of the response is not looked at). *)
Definition fetchMistral (reply : ChatOutcome) : jsstring :=
  match reply with
  | HttpResponse _ (Some content) => trim content
  | _ => []
  end.

Definition goalPrompt (st : State) : jsstring :=
  js "Игроки находятся на уровне " ++ decimal (level st) ++
  js " темного фэнтези подземелья. Основная цель - пройти 5 уровней. Придумай конкретную цель для этого уровня (1 предложение).".

Definition summaryPrompt (st : State) : jsstring :=
  js "Создай очень краткое резюме (1 предложение) этих событий:" ++ newline ++
  join newline (lastN 4 (history st)).

Definition memoryPrompt (st : State) : jsstring :=
  js "Сожми эти воспоминания в одно краткое предложение:" ++ newline ++
  join newline (Mem.summary <$> gameMemory st).

(** [!room.state.levelGoals[room.state.level]] *)
Definition hasLevelGoal (st : State) : bool :=
  truthy (levelGoals st !! level st).

(** The three blocks of [updateGameMemory], in source order. *)
Definition goalStage (ext : Oracle) (st : State) : State * list NetCall :=
  if hasLevelGoal st then (st, [])
  else
    let response := fetchMistral (goalReply ext) in
    let goal := orElse response (js "Исследовать уровень " ++ decimal (level st)) in
    (set_levelGoals (<[level st := goal]> (levelGoals st)) st,
     [ChatCompletion 100 (goalPrompt st)]).

Definition historyStage (ext : Oracle) (st : State) : State * list NetCall :=
  if (4 <? Z.of_nat (length (history st))) then
    let response := fetchMistral (summaryReply ext) in
    let summary := orElse response (js "Игроки продвигаются вперед") in
    let entry := {| Mem.level := level st; Mem.summary := summary;
                    Mem.timestamp := summaryNow ext |} in
    (set_history (lastN 2 (history st))
       (set_gameMemory (gameMemory st ++ [entry]) st),
     [ChatCompletion 100 (summaryPrompt st)])
  else (st, []).

Definition memoryStage (ext : Oracle) (st : State) : State * list NetCall :=
  if (3 <? Z.of_nat (length (gameMemory st))) then
    let response := fetchMistral (compressReply ext) in
    let compressed := orElse response (js "Ключевые события путешествия") in
    (set_gameMemory [ {| Mem.level := level st; Mem.summary := compressed;
                         Mem.timestamp := compressNow ext |} ] st,
     [ChatCompletion 100 (memoryPrompt st)])
  else (st, []).

Definition updateGameMemory (cfg : Config) (ext : Oracle) (st : State)
    : State * list NetCall :=
  if FAST_DEBUG cfg then
    (if hasLevelGoal st then st
     else set_levelGoals
            (<[level st := js "Пройти уровень " ++ decimal (level st)]>
               (levelGoals st)) st,
     [])
  else
    let '(st1, n1) := goalStage ext st in
    let '(st2, n2) := historyStage ext st1 in
    let '(st3, n3) := memoryStage ext st2 in
    (st3, n1 ++ n2 ++ n3).

Definition cannedInitial : jsstring :=
  js "Перед вами темный вход в древнее подземелье. Массивные каменные двери покрыты рунами и мхом. Холодный воздух веет из черного проема. Слышны странные звуки из глубины.".

Definition cannedNext : jsstring :=
  js "Вы продвигаетесь глубже. Факелы на стенах горят синим пламенем, освещая мрачный коридор. Впереди виднеется развилка путей и слышно тихое рычание.".

Definition fallbackNarration : jsstring :=
  js "Мастер игры задумался... Продолжайте путешествие.".

Definition userMessage (isInitial : bool) : jsstring :=
  if isInitial then js "Начни игру: опиши вход в подземелье."
  else js "Опиши результат действий и новую ситуацию.".

(** [getGmResponse(room, isInitial)]: the narration, the room state it
    leaves behind and the requests it made.  The system message of the
    request is built from the prompt template and the state; only the
    reply matters below. *)
Definition getGmResponse (cfg : Config) (ext : Oracle) (st : State)
    (isInitial : bool) : jsstring * State * list NetCall :=
  if FAST_DEBUG cfg then
    (if isInitial then cannedInitial else cannedNext, st, [])
  else
    let '(st1, n1) :=
      match draft cfg with
      | MemoryAware => updateGameMemory cfg ext st
      | Baseline => (st, [])
      end in
    let calls := n1 ++ [ChatCompletion 300 (userMessage isInitial)] in
    match narrationReply ext with
    | HttpResponse true (Some content) => (slice0 250 content, st1, calls)
    | _ => (fallbackNarration, st1, calls)
    end.

Definition domainText (cfg : Config) : jsstring := toString (DOMAIN cfg).

Definition fallbackImage (cfg : Config) : jsstring :=
  domainText cfg ++ js "/fallback-image.png".

(** [generateImage(description)] *)
Definition generateImage (cfg : Config) (ext : Oracle) (description : jsstring)
    : jsstring * list NetCall :=
  if FAST_DEBUG cfg then (fallbackImage cfg, [])
  else
    let inputs := js "Dark fantasy dungeon scene: " ++ description ++
                  js ". Moody, gothic, high detail." in
    match imageReply ext with
    | ImageSaved =>
        (domainText cfg ++ js "/images/image_" ++ decimal (imageNow ext) ++ js ".png",
         [TextToImage inputs])
    | ImageFailed => (fallbackImage cfg, [TextToImage inputs])
    end.

(* ===================================================================== *)
(** ** Turn-state machine *)
(* ===================================================================== *)

(** [room.state.f = ...]: a mutation of the state held by a room. *)
Definition modify_state (f : State → State) (r : Room) : Room :=
  set_state (f (state r)) r.

(** [room.state.history.push(line)] *)
Definition push_history (line : jsstring) (st : State) : State :=
  set_history (history st ++ [line]) st.

Definition gmLine (text : jsstring) : jsstring := js "GM: " ++ text.

(** The sequence shared by [startGame], the action handler and the
    narration pass: ask for a narration and its image, broadcast them
    with the given event, and push the narration on the history. *)
Definition narrate (cfg : Config) (ext : Oracle) (rid : jsstring) (a : nat)
    (isInitial : bool) (event : jsstring → jsstring → Payload) (w : World)
    : jsstring * World :=
  match heap w !! a with
  | None => ([], w)
  | Some room =>
      let '(text, st1, n1) := getGmResponse cfg ext (state room) isInitial in
      let '(imageUrl, n2) := generateImage cfg ext text in
      let w := request (n1 ++ n2) w in
      let w := emit (ToRoom rid) (event text imageUrl) w in
      (text, update_room a (set_state (push_history (gmLine text) st1)) w)
  end.

(** [startGame(roomId)] *)
Definition startGame (cfg : Config) (ext : Oracle) (rid : jsstring) (w : World)
    : World :=
  match room_at w rid with
  | None => w
  | Some (a, room) =>
      let w :=
        match timeout room with
        | Some h => update_room a (set_timeout None) (clearTimeout h w)
        | None => w
        end in
      let '(_, w) := narrate cfg ext rid a true GameStart w in
      let w := update_room a (modify_state (set_turn (PlayerNo 1))) w in
      emit (ToRoom rid) (PlayerTurn 1) w
  end.

Definition levelMarker : jsstring := js "level complete".

(** [gmResponse.toLowerCase().includes('level complete')] *)
Definition levelCompleted (gmResponse : jsstring) : bool :=
  includes (toLowerCase gmResponse) levelMarker.

(** The state changes of the level-complete block: [level++], and in
    the memory-aware draft the history and the level memory are reset. *)
Definition advanceLevel (cfg : Config) (st : State) : State :=
  let st := set_level (increment (level st)) st in
  match draft cfg with
  | Baseline => st
  | MemoryAware => set_levelMemory [] (set_history [] st)
  end.

(** [room.state.levelGoals[room.state.level] || "..."] *)
Definition goalOrDefault (st : State) : jsstring :=
  match levelGoals st !! level st with
  | Some g => orElse g (js "Новая цель будет определена")
  | None => js "Новая цель будет определена"
  end.

(** The level-complete block of the narration pass. *)
Definition levelUp (cfg : Config) (rid : jsstring) (a : nat) (w : World)
    : World :=
  let w := update_room a (modify_state (advanceLevel cfg)) w in
  match heap w !! a with
  | None => w
  | Some room =>
      let goal :=
        match draft cfg with
        | Baseline => None
        | MemoryAware => Some (goalOrDefault (state room))
        end in
      emit (ToRoom rid) (LevelComplete (level (state room)) goal) w
  end.

(** The callback that [nextTurn] schedules two seconds ahead: the GM
    narration pass on the room object it closed over. *)
Definition gmPass (cfg : Config) (ext : Oracle) (rid : jsstring) (a : nat)
    (w : World) : World :=
  let '(gmResponse, w) := narrate cfg ext rid a false GmUpdate w in
  let w := if levelCompleted gmResponse then levelUp cfg rid a w else w in
  match heap w !! a with
  | None => w
  | Some room =>
      if 5 <? level (state room) then emit (ToRoom rid) GameEnd w
      else
        emit (ToRoom rid) (PlayerTurn 1)
          (update_room a (modify_state (set_turn (PlayerNo 1))) w)
  end.

(** The GM branch of [nextTurn]: hand the turn to the GM, tell the room,
    and schedule the narration pass. *)
Definition turnToGm (rid : jsstring) (a : nat) (w : World) : World :=
  let w := update_room a (modify_state (set_turn GmTurnNow)) w in
  let w := emit (ToRoom rid) GmTurn w in
  (setTimeout (GmPass rid a) w).2.

(** [nextTurn(roomId)].  ([currentTurn++] is exact below 2^53, and from
    there on both the number and its successor exceed every array length,
    so the branch taken is the same.) *)
Definition nextTurn (cfg : Config) (rid : jsstring) (w : World) : World :=
  match room_at w rid with
  | None => w
  | Some (a, room) =>
      if DEBUG_MODE cfg then turnToGm rid a w
      else
        let currentTurn :=
          match turn (state room) with
          | PlayerNo n => n
          | GmTurnNow => 0
          end + 1 in
        if Z.of_nat (length (players room)) <? currentTurn then turnToGm rid a w
        else
          emit (ToRoom rid) (PlayerTurn currentTurn)
            (update_room a (modify_state (set_turn (PlayerNo currentTurn))) w)
  end.

(* ===================================================================== *)
(** ** Socket handlers *)
(* ===================================================================== *)

Definition set_username (v : option jsstring) (s : Socket) : Socket :=
  {| username := v; roomId := roomId s; connected := connected s |}.
Definition set_roomId (v : option jsstring) (s : Socket) : Socket :=
  {| username := username s; roomId := v; connected := connected s |}.
Definition set_connected (v : bool) (s : Socket) : Socket :=
  {| username := username s; roomId := roomId s; connected := v |}.

Definition update_sock (id : jsstring) (f : Socket → Socket) (w : World)
    : World :=
  set_socks (alter f id (socks w)) w.

Definition usernameOf (w : World) (id : jsstring) : option jsstring :=
  match socks w !! id with
  | Some s => username s
  | None => None
  end.

Definition roomIdOf (w : World) (id : jsstring) : option jsstring :=
  match socks w !! id with
  | Some s => roomId s
  | None => None
  end.

(** [username || `Player-${socket.id.substring(0, 4)}`] *)
Definition defaultName (id : jsstring) (username : option jsstring)
    : option jsstring :=
  if truthy username then username
  else Some (js "Player-" ++ slice0 4 id).

(** The [connectedUsers] map, in insertion order. *)
Fixpoint users_get (k : option jsstring)
    (m : list (option jsstring * jsstring)) : option jsstring :=
  match m with
  | [] => None
  | (k', v) :: m' => if decide (k' = k) then Some v else users_get k m'
  end.

Fixpoint users_set (k : option jsstring) (v : jsstring)
    (m : list (option jsstring * jsstring))
    : list (option jsstring * jsstring) :=
  match m with
  | [] => [(k, v)]
  | (k', v') :: m' =>
      if decide (k' = k) then (k, v) :: m' else (k', v') :: users_set k v m'
  end.

(** The loop of the disconnect handler: delete the first entry that maps
    to the connection id, then stop. *)
Fixpoint users_forget (id : jsstring)
    (m : list (option jsstring * jsstring))
    : list (option jsstring * jsstring) :=
  match m with
  | [] => []
  | (k, v) :: m' =>
      if decide (v = id) then m' else (k, v) :: users_forget id m'
  end.

(** [connectedSockets.delete(socket.id)], the last statement of the
    disconnect handler. *)
Definition forgetSocket (id : jsstring) (w : World) : World * bool :=
  (set_connectedSockets (connectedSockets w ∖ {[id]}) w, false).

(** The room part of the disconnect handler, for a socket whose
    [roomId] names the registered room object [a].  The boolean tells
    whether the handler threw. *)
Definition leaveRoom (cfg : Config) (id rid : jsstring) (a : nat)
    (room : Room) (w : World) : World * bool :=
  let index := findIndex id (players room) in
  if index =? -1 then forgetSocket id w
  else
    let username := usernameOf w id in
    let rest := removeFirst id (players room) in
    let w := update_room a (λ r, set_players (removeFirst id (players r)) r) w in
    let w :=
      if truthy username
      then emit (ToRoom rid) (PlayerLeft (toString username)) w
      else w in
    if 0 <? Z.of_nat (length rest) then
      match draft cfg with
      | Baseline =>
          forgetSocket id
            (emit (ToRoom rid) (PlayersUpdate (playerNames w rest)) w)
      | MemoryAware =>
          (* io.to(roomId): no roomId is in scope, a ReferenceError *)
          (w, true)
      end
    else forgetSocket id (set_rooms (delete rid (rooms w)) w).

(** The ['disconnect'] handler of connection [id]. *)
Definition on_disconnect (cfg : Config) (id : jsstring) (w : World)
    : World * bool :=
  let w := set_connectedUsers (users_forget id (connectedUsers w)) w in
  match roomIdOf w id with
  | Some rid =>
      match (if truthy (Some rid) then room_at w rid else None) with
      | Some (a, room) => leaveRoom cfg id rid a room w
      | None => forgetSocket id w
      end
  | None => forgetSocket id w
  end.

(** [socket.disconnect()] and a disconnect coming from the transport: a
    connected socket is marked closed and its handler runs at once. *)
Definition socket_disconnect (cfg : Config) (id : jsstring) (w : World)
    : World * bool :=
  match socks w !! id with
  | Some s =>
      if connected s
      then on_disconnect cfg id (update_sock id (set_connected false) w)
      else (w, false)
  | None => (w, false)
  end.

(** [rooms[roomId].timeout = setTimeout(..., 120000)] *)
Definition armJoinTimeout (rid : jsstring) (w : World) : World :=
  let '(h, w) := setTimeout (JoinTimeout rid) w in
  match rooms w !! rid with
  | Some a => update_room a (set_timeout (Some h)) w
  | None => w
  end.

(** The ['createRoom'] handler; [newId] is the room id drawn from
    [Math.random()]. *)
Definition on_createRoom (cfg : Config) (ext : Oracle) (id : jsstring)
    (username : option jsstring) (newId : jsstring) (w : World) : World :=
  if truthy (roomIdOf w id) then
    emit (ToSocket id) (Error (js "Вы уже находитесь в комнате")) w
  else
    let name := defaultName id username in
    let w := update_sock id (λ s, set_username name (set_roomId (Some newId) s)) w in
    let w := register_room newId (newRoom id) w in
    let w := emit (ToSocket id) (RoomCreated newId) w in
    if negb (DEBUG_MODE cfg) then armJoinTimeout newId w
    else
      let w := emit (ToRoom newId) (PlayersUpdate [toString name]) w in
      startGame cfg ext newId w.

(** The end of the ['joinRoom'] handler, common to both branches. *)
Definition joinTail (cfg : Config) (ext : Oracle) (rid : jsstring) (w : World)
    : World :=
  match room_at w rid with
  | None => w
  | Some (_, room) =>
      let w := emit (ToRoom rid) (PlayersUpdate (playerNames w (players room))) w in
      if getRequiredPlayersCount cfg <=? Z.of_nat (length (players room))
      then startGame cfg ext rid w
      else w
  end.

(** Eviction of an older connection registered under the same name. *)
Definition evictOld (cfg : Config) (id : jsstring)
    (username : option jsstring) (w : World) : World * bool :=
  match users_get username (connectedUsers w) with
  | Some oldSocketId =>
      if decide (oldSocketId = id) then (w, false)
      else
        match socks w !! oldSocketId with
        | Some s => if connected s then socket_disconnect cfg oldSocketId w
                    else (w, false)
        | None => (w, false)
        end
  | None => (w, false)
  end.

Definition roomFull : Payload := Error (js "Комната заполнена").

(** The ['joinRoom'] handler. *)
Definition on_joinRoom (cfg : Config) (ext : Oracle) (id rid : jsstring)
    (username : option jsstring) (w : World) : World :=
  match room_at w rid with
  | None =>
      match draft cfg with
      | Baseline => emit (ToSocket id) (Error (js "Комната не найдена")) w
      | MemoryAware =>
          let w := update_sock id
                     (λ s, set_username (defaultName id username)
                             (set_roomId (Some rid) s)) w in
          let w := register_room rid (newRoom id) w in
          let w := if negb (DEBUG_MODE cfg) then armJoinTimeout rid w else w in
          joinTail cfg ext rid w
      end
  | Some (_, room) =>
      if (getRequiredPlayersCount cfg <=? Z.of_nat (length (players room)))
         && negb (seated id (players room))
      then emit (ToSocket id) roomFull w
      else
        let '(w, thrown) := evictOld cfg id username w in
        if thrown then w
        else
          let w := set_connectedUsers (users_set username id (connectedUsers w)) w in
          let w := update_sock id
                     (λ s, set_roomId (Some rid) (set_username username s)) w in
          match room_at w rid with
          | None => w     (* rooms[roomId] is undefined: a TypeError *)
          | Some (a, room) =>
              let w :=
                if negb (seated id (players room))
                then update_room a (λ r, set_players (players r ++ [id]) r) w
                else w in
              joinTail cfg ext rid w
          end
  end.

(** [room.state.turn === playerIndex + 1] *)
Definition turnIs (t : Turn) (n : Z) : bool :=
  match t with
  | PlayerNo m => m =? n
  | GmTurnNow => false
  end.

Definition notYourTurn : Payload := Error (js "Сейчас не ваш ход").

(** The game-action part of the ['action'] handler. *)
Definition playAction (cfg : Config) (ext : Oracle) (id rid : jsstring)
    (a : nat) (type text : jsstring) (w : World) : World :=
  let line := toString (usernameOf w id) ++ js " " ++ type ++ js ": " ++ text in
  let w := update_room a (modify_state (push_history line)) w in
  let '(_, w) := narrate cfg ext rid a false GmUpdate w in
  nextTurn cfg rid w.

(** The ['action'] handler. *)
Definition on_action (cfg : Config) (ext : Oracle) (id rid type text : jsstring)
    (w : World) : World :=
  match room_at w rid with
  | None => emit (ToSocket id) (Error (js "Комната не найдена")) w
  | Some (a, room) =>
      let playerIndex := findIndex id (players room) in
      let isValidTurn :=
        DEBUG_MODE cfg || turnIs (turn (state room)) (playerIndex + 1) in
      if negb isValidTurn then emit (ToSocket id) notYourTurn w
      else
        match draft cfg with
        | Baseline =>
            if decide (type = js "say")
            then emit (ToRoom rid) (SayMessage (usernameOf w id) text) w
            else playAction cfg ext id rid a type text w
        | MemoryAware =>
            let w := emit (ToRoom rid) (SayMessage (usernameOf w id) text) w in
            playAction cfg ext id rid a type text w
        end
  end.

(** The ['connection'] handler.  The transport hands out every id once,
    so an id that already names a socket object is not admitted again. *)
Definition on_connection (id : jsstring) (w : World) : World :=
  if decide (id ∈ connectedSockets w) then w
  else
    match socks w !! id with
    | Some _ => w
    | None =>
        set_connectedSockets ({[id]} ∪ connectedSockets w)
          (set_socks (<[id := {| username := None; roomId := None;
                                 connected := true |}]> (socks w)) w)
    end.

(** The callback of the waiting timer. *)
Definition joinTimeout (cfg : Config) (rid : jsstring) (w : World) : World :=
  match room_at w rid with
  | Some (_, room) =>
      if Z.of_nat (length (players room)) <? getRequiredPlayersCount cfg then
        set_rooms (delete rid (rooms w))
          (emit (ToRoom rid)
             (Error (js "Недостаточно игроков для начала игры")) w)
      else w
  | None => w
  end.

(* ===================================================================== *)
(** ** The server as a transition system *)
(* ===================================================================== *)

(** What can happen to the server: a connection arrives, a connected
    client sends one of the three messages, a connection goes away, or a
    pending timer fires.  The messages and the timer carry what the
    services answer while their handler runs. *)
Inductive Event :=
| Connect (id : jsstring)
| CreateRoom (id : jsstring) (username : option jsstring) (newId : jsstring)
    (ext : Oracle)
| JoinRoom (id roomId : jsstring) (username : option jsstring) (ext : Oracle)
| Action (id roomId type text : jsstring) (ext : Oracle)
| Disconnect (id : jsstring)
| Fire (handle : nat) (ext : Oracle).

(** Handlers run for sockets that went through ['connection'] and are
    still connected. *)
Definition live (w : World) (id : jsstring) : bool :=
  match socks w !! id with
  | Some s => connected s
  | None => false
  end.

Definition fire (cfg : Config) (ext : Oracle) (h : nat) (w : World) : World :=
  match timers w !! h with
  | None => w
  | Some t =>
      let w := clearTimeout h w in
      match t with
      | GmPass rid a => gmPass cfg ext rid a w
      | JoinTimeout rid => joinTimeout cfg rid w
      end
  end.

Definition step (cfg : Config) (e : Event) (w : World) : World :=
  match e with
  | Connect id => on_connection id w
  | CreateRoom id username newId ext =>
      if live w id then on_createRoom cfg ext id username newId w else w
  | JoinRoom id rid username ext =>
      if live w id then on_joinRoom cfg ext id rid username w else w
  | Action id rid type text ext =>
      if live w id then on_action cfg ext id rid type text w else w
  | Disconnect id => (socket_disconnect cfg id w).1
  | Fire h ext => fire cfg ext h w
  end.

Definition run (cfg : Config) (es : list Event) (w : World) : World :=
  foldl (λ w e, step cfg e w) w es.

Definition reachable (cfg : Config) (w : World) : Prop :=
  ∃ es, w = run cfg es emptyWorld.

(** The events a handler run added to the log. *)
Definition emitted (w w' : World) : list (Target * Payload) :=
  drop (length (out w)) (out w').


(* ===================================================================== *)
(** ** Vocabulary of the properties *)
(* ===================================================================== *)




(** An action was turned down: the only effect of the handler is the
    not-your-turn error sent to the submitter. *)
Definition rejected (id : jsstring) (w w' : World) : Prop :=
  w' = emit (ToSocket id) notYourTurn w.

(** The memory entries as the compaction block of [updateGameMemory]
    finds them, after the goal and history blocks of the same run. *)
Definition memoryBeforeCompaction (ext : Oracle) (st : State) : State :=
  (historyStage ext (goalStage ext st).1).1.

(** The narration request came back without a usable answer. *)
Definition narrationFailed (ext : Oracle) : Prop :=
  match narrationReply ext with
  | HttpResponse true (Some _) => False
  | _ => True
  end.

(** The narration a GM pass obtains for a room object. *)
Definition narrationOf (cfg : Config) (ext : Oracle) (room : Room) : jsstring :=
  (getGmResponse cfg ext (state room) false).1.1.

(** The payload of the level-complete event in each draft. *)
Definition levelCompletePayload (cfg : Config) (st : State) : Payload :=
  LevelComplete (level st)
    (match draft cfg with
     | Baseline => None
     | MemoryAware => Some (goalOrDefault st)
     end).


(** The state a narration pass leaves in the room, given the narration
    [text] and the state [st1] left by the narration adapter. *)
Definition afterNarration (cfg : Config) (text : jsstring) (st1 : State)
    : State :=
  let st2 := push_history (gmLine text) st1 in
  if levelCompleted text then advanceLevel cfg st2 else st2.

Definition afterPass (cfg : Config) (text : jsstring) (st1 : State) : State :=
  let st3 := afterNarration cfg text st1 in
  if 5 <? level st3 then st3 else set_turn (PlayerNo 1) st3.

(** The events a narration pass sends to the room. *)
Definition passEvents (cfg : Config) (rid text img : jsstring) (st1 : State)
    : list (Target * Payload) :=
  let st3 := afterNarration cfg text st1 in
  [(ToRoom rid, GmUpdate text img)] ++
  (if levelCompleted text
   then [(ToRoom rid, levelCompletePayload cfg st3)] else []) ++
  [(ToRoom rid, if 5 <? level st3 then GameEnd else PlayerTurn 1)].


(** What a disconnect of connection [id] may do to a room object: the
    state and the timer handle are kept, and the players list is either
    kept or loses the seat of [id]. *)
Definition leave_rel (id : jsstring) (r r' : Room) : Prop :=
  state r' = state r ∧ timeout r' = timeout r ∧
  (players r' = players r ∨ players r' = removeFirst id (players r)).

(** The seats of a room are in order: it has a player, no connection is
    seated twice, and the list is within the required player count. *)
Definition seatsOk (cfg : Config) (r : Room) : Prop :=
  players r ≠ [] ∧ NoDup (players r) ∧
  Z.of_nat (length (players r)) ≤ getRequiredPlayersCount cfg.

(** The registry is in order: every registered id names a room object
    whose seats are in order, and no room object is registered twice. *)
Definition registryOk (cfg : Config) (w : World) : Prop :=
  (∀ rid a, rooms w !! rid = Some a →
            ∃ r, heap w !! a = Some r ∧ seatsOk cfg r) ∧
  (∀ rid1 rid2 a, rooms w !! rid1 = Some a → rooms w !! rid2 = Some a →
                  rid1 = rid2).

(** Every room object has an empty game memory. *)
Definition noMemory (w : World) : Prop :=
  Forall (λ r, gameMemory (state r) = []) (heap w).

(** The completion test of the superseded first draft
    (src/unnamed/part_000): [gmResponse.includes('level complete')],
    without the lower-casing of the later drafts. *)
Definition levelCompleted_firstDraft (gmResponse : jsstring) : bool :=
  includes gmResponse levelMarker.

(** Two code units are the same letter up to the case of the ASCII
    alphabet: they are equal, or [m] is a small letter a-z and [c] is its
    capital. *)
Definition sameIgnoringCase (c m : N) : Prop :=
  c = m ∨ ((97 ≤ m)%N ∧ (m ≤ 122)%N ∧ (c + 32)%N = m).


#[global] Instance sameIgnoringCase_dec c m : Decision (sameIgnoringCase c m).
Proof. unfold sameIgnoringCase. apply _. Defined.

(** White space only (or nothing at all). *)
Definition blank (s : jsstring) : Prop := Forall (λ c, isSpace c = true) s.

(** [core] is [content] without the white space around it, and [core]
    is not empty: it begins and ends with a unit that is not white space. *)
Definition trimsTo (content core : jsstring) : Prop :=
  ∃ pre post first rest front final,
    content = pre ++ core ++ post ∧ blank pre ∧ blank post ∧
    core = first :: rest ∧ isSpace first = false ∧
    core = front ++ [final] ∧ isSpace final = false.

(** What the summarizer makes of the outcome of a request: the content
    of the reply without the white space around it, or the [fallback]
    when the content is blank, the reply carries no content, or the
    request failed. *)
Inductive answerOr (fallback : jsstring) : ChatOutcome → jsstring → Prop :=
| answer_text ok content core :
    trimsTo content core →
    answerOr fallback (HttpResponse ok (Some content)) core
| answer_blank ok content :
    blank content →
    answerOr fallback (HttpResponse ok (Some content)) fallback
| answer_missing ok :
    answerOr fallback (HttpResponse ok None) fallback
| answer_failed :
    answerOr fallback RequestFailed fallback.

(** A request of the summarizer: a chat completion of 100 tokens. *)
Definition isHelperCall (c : NetCall) : Prop :=
  ∃ text, c = ChatCompletion 100 text.

(** The room has a goal for its current level: a non-empty text. *)
Definition goalKnown (st : State) : Prop :=
  ∃ goal, levelGoals st !! level st = Some goal ∧ goal ≠ [].

(** Every room object satisfies [Q]. *)
Definition heapAll (Q : Room → Prop) (w : World) : Prop :=
  Forall Q (heap w).

(** The number [nextTurn] starts counting from:
    [typeof turn === 'number' ? turn : 0]. *)
Definition turnNumber (t : Turn) : Z :=
  match t with
  | PlayerNo n => n
  | GmTurnNow => 0
  end.

(** A numeric turn is a seat number, that is, at least 1; the level is at
    least 1. *)
Definition turnOk (r : Room) : Prop :=
  1 ≤ level (state r) ∧
  match turn (state r) with
  | PlayerNo n => 1 ≤ n
  | GmTurnNow => True
  end.

(** The narration context is bounded: at most 5 history lines and at
    most 3 memory entries. *)
Definition contextBounded (r : Room) : Prop :=
  (length (history (state r)) ≤ 5)%nat ∧
  (length (gameMemory (state r)) ≤ 3)%nat.

(* ===================================================================== *)
(** ** Sample deployments and inputs *)
(* ===================================================================== *)

Definition debugConfig : Config :=
  {| draft := MemoryAware; env_DEBUG_MODE := true; FAST_DEBUG := false;
     DOMAIN := Some (js "https://dungeon.example") |}.

Definition standardConfig : Config :=
  {| draft := MemoryAware; env_DEBUG_MODE := false; FAST_DEBUG := false;
     DOMAIN := Some (js "https://dungeon.example") |}.

Definition fastConfig : Config :=
  {| draft := MemoryAware; env_DEBUG_MODE := true; FAST_DEBUG := true;
     DOMAIN := Some (js "https://dungeon.example") |}.

Definition baselineConfig : Config :=
  {| draft := Baseline; env_DEBUG_MODE := false; FAST_DEBUG := false;
     DOMAIN := Some (js "https://dungeon.example") |}.

(** Baseline draft: one player has created the room [den] and the game
    has started. *)
Definition baselineDen : World :=
  run baselineConfig
    [Connect (js "sock-solo");
     CreateRoom (js "sock-solo") (Some (js "solo")) (js "den")
       {| goalReply := RequestFailed; summaryReply := RequestFailed;
          compressReply := RequestFailed;
          narrationReply := HttpResponse true (Some (js "Вы у входа."));
          imageReply := ImageSaved;
          summaryNow := 0; compressNow := 0; imageNow := 1700000001000 |}]
    emptyWorld.

Definition replied (s : string) : ChatOutcome :=
  HttpResponse true (Some (js s)).

(** A run of the services in which the narrator answers [s]. *)
Definition narrating (s : string) : Oracle :=
  {| goalReply := replied "Найти ключ"; summaryReply := replied "Герои идут";
     compressReply := replied "Долгий путь"; narrationReply := replied s;
     imageReply := ImageSaved;
     summaryNow := 1700000000000; compressNow := 1700000000500;
     imageNow := 1700000001000 |}.

(** A run in which the replies come wrapped in white space. *)
Definition padded : Oracle :=
  {| goalReply := replied " Найти ключ "; summaryReply := replied " Герои идут ";
     compressReply := replied "  Долгий путь "; narrationReply := replied "Дальше.";
     imageReply := ImageSaved;
     summaryNow := 1700000000000; compressNow := 1700000000500;
     imageNow := 1700000001000 |}.

(** A run in which every request to the language model fails. *)
Definition outage : Oracle :=
  {| goalReply := RequestFailed; summaryReply := RequestFailed;
     compressReply := RequestFailed; narrationReply := RequestFailed;
     imageReply := ImageFailed;
     summaryNow := 1700000000000; compressNow := 1700000000500;
     imageNow := 1700000001000 |}.

Definition memo (l : Z) (s : string) : Mem.Entry :=
  {| Mem.level := l; Mem.summary := js s; Mem.timestamp := 1600000000000 |}.

(** A room state with three memories and five history lines. *)
Definition crowdedState : State :=
  {| level := 2; turn := PlayerNo 1;
     history := [js "GM: a"; js "Ann use: b"; js "GM: c"; js "Bob use: d"; js "GM: e"];
     levelGoals := {[ 2 := js "Найти ключ" ]};
     gameMemory := [memo 1 "one"; memo 1 "two"; memo 2 "three"];
     levelMemory := [] |}.

Definition ann : jsstring := js "sock-ann".
Definition bob : jsstring := js "sock-bob".
Definition cat : jsstring := js "sock-cat".
Definition hall : jsstring := js "hall".

(** Standard mode: three players join the room [hall]; with the third
    one the game starts and the turn goes to the first seat. *)
Definition lobby : World :=
  run standardConfig
    [Connect ann; Connect bob; Connect cat;
     JoinRoom ann hall (Some (js "ann")) (narrating "Вы у входа.");
     JoinRoom bob hall (Some (js "bob")) (narrating "Вы у входа.");
     JoinRoom cat hall (Some (js "cat")) (narrating "Вы у входа.")]
    emptyWorld.

Definition roomObject (w : World) (a : nat) : Room :=
  default (newRoom []) (heap w !! a).


Definition solo : jsstring := js "sock-solo".
Definition den : jsstring := js "den".

(** One round of the single-player loop: an action, then the narration
    pass it scheduled under timer handle [h], which completes the level. *)
Definition clearLevel (h : nat) : list Event :=
  [Action solo den (js "use") (js "рычаг") (narrating "Вы идёте дальше.");
   Fire h (narrating "Босс повержен. Level complete!")].

(** Debug mode: one player creates the room [den] and clears all five
    levels; the last narration pass raises the level to 6. *)
Definition finishedEvents : list Event :=
  [Connect solo;
   CreateRoom solo (Some (js "solo")) den (narrating "Вы у входа.")]
  ++ clearLevel 0 ++ clearLevel 1 ++ clearLevel 2 ++ clearLevel 3
  ++ clearLevel 4.




(** A further action after the game has ended. *)
Definition oneMoreAction : Event :=
  Action solo den (js "use") (js "дверь") (narrating "Тишина.").

(** The world after that action; its narration pass is pending under
    timer handle 5. *)
Definition afterEnd : World :=
  run debugConfig (finishedEvents ++ [oneMoreAction]) emptyWorld.


Definition dan : jsstring := js "sock-dan".

(** Debug mode, memory-aware draft: one connection joins the room
    [hall], then the room [den] (each join creates the room and starts its
    game), and then disconnects. *)
Definition strayEvents : list Event :=
  [Connect ann;
   JoinRoom ann hall (Some (js "ann")) (narrating "Вы у входа.");
   JoinRoom ann den (Some (js "ann")) (narrating "Вы у входа.")].

Definition inTwoRooms : World := run debugConfig strayEvents emptyWorld.

Definition strayed : World :=
  run debugConfig (strayEvents ++ [Disconnect ann]) emptyWorld.


(** Debug mode, memory-aware draft: a connection joins the room whose
    id is the empty string, which creates that room. *)
Definition unnamedRoom : World :=
  run debugConfig
    [Connect ann; JoinRoom ann [] (Some (js "ann")) (narrating "Вы у входа.")]
    emptyWorld.

(** Seat 1 of the room [hall] says something while it is its turn. *)
Definition sayHello : Event :=
  Action ann hall (js "say") (js "привет") (narrating "Эхо отвечает.").


(* ===================================================================== *)
(** ** Checks on concrete inputs *)
(* ===================================================================== *)


Example js_cyrillic : js "GM: Ход" = [71; 77; 58; 32; 1061; 1086; 1076]%N.
Proof. reflexivity. Qed.

Example includes_marker :
  levelCompleted (js "The gate opens. LEVEL Complete!") = true.
Proof. reflexivity. Qed.

Example first_draft_is_case_sensitive :
  levelCompleted (js "Level Complete") = true ∧
  levelCompleted_firstDraft (js "Level Complete") = false ∧
  levelCompleted_firstDraft (js "level complete") = true.
Proof. repeat split; reflexivity. Qed.

Example trim_example : trim (js "  цель  ") = js "цель".
Proof. reflexivity. Qed.

Example lastN_example : lastN 2 [1; 2; 3; 4; 5] = [4; 5].
Proof. reflexivity. Qed.

Example decimal_example : decimal 42 = js "42".
Proof. reflexivity. Qed.

Example canned_lengths :
  (length cannedInitial, length cannedNext, length fallbackNarration)
  = (166, 145, 49)%nat.
Proof. vm_compute. reflexivity. Qed.

(* ===================================================================== *)
(** ** Narration adapter *)
(* ===================================================================== *)

(** C5.  Whatever path [getGmResponse] takes -- the canned fast-debug
    answer, a reply of the language model, or the fallback after a failed
    request -- the narration it returns has at most 250 code units, even
    when the model answered with a longer text. *)
Theorem getGmResponse_at_most_250 (cfg : Config) (ext : Oracle) (st : State)
    (isInitial : bool) :
  (length (getGmResponse cfg ext st isInitial).1.1 ≤ 250)%nat.
Proof.
  unfold getGmResponse.
  destruct (FAST_DEBUG cfg).
  - destruct isInitial; vm_compute; lia.
  - destruct (match draft cfg with
              | MemoryAware => updateGameMemory cfg ext st
              | Baseline => (st, [])
              end) as [st1 n1].
    destruct (narrationReply ext) as [|[] [content|]]; cbn [fst snd];
      try (vm_compute; lia).
    unfold slice0. rewrite length_take. lia.
Qed.

(** C9.  With the fast-debug flag set, [generateImage] returns the fixed
    fallback URL and [getGmResponse] returns one of the two canned texts,
    chosen by [isInitial] alone; neither depends on the services or on the
    room, neither changes the room, and neither makes a request. *)
Theorem fast_debug_answers_are_canned (cfg : Config) :
  FAST_DEBUG cfg = true →
  (∀ ext description,
     generateImage cfg ext description
     = (toString (DOMAIN cfg) ++ js "/fallback-image.png", [])) ∧
  (∀ ext st isInitial,
     getGmResponse cfg ext st isInitial
     = (if isInitial then cannedInitial else cannedNext, st, [])).
Proof.
  intros Hfast. split; intros.
  - unfold generateImage. rewrite Hfast. reflexivity.
  - unfold getGmResponse. rewrite Hfast. reflexivity.
Qed.

Lemma fast_debug_answers_are_canned_witness :
  FAST_DEBUG fastConfig = true ∧
  generateImage fastConfig outage (js "тёмный коридор")
  = (js "https://dungeon.example/fallback-image.png", []) ∧
  getGmResponse fastConfig outage crowdedState true
  = (cannedInitial, crowdedState, []) ∧
  getGmResponse fastConfig (narrating "Level complete") crowdedState false
  = (cannedNext, crowdedState, []).
Proof.
  split; [reflexivity|].
  destruct (fast_debug_answers_are_canned fastConfig eq_refl) as [Himg Hgm].
  split; [|split].
  - rewrite Himg. reflexivity.
  - apply (Hgm outage crowdedState true).
  - apply (Hgm (narrating "Level complete") crowdedState false).
Defined.

(* ===================================================================== *)
(** ** Memory summarizer *)
(* ===================================================================== *)

Lemma goalStage_level ext st : level (goalStage ext st).1 = level st.
Proof. unfold goalStage. destruct (hasLevelGoal st); reflexivity. Qed.

Lemma historyStage_level ext st : level (historyStage ext st).1 = level st.
Proof. unfold historyStage. case_match; reflexivity. Qed.

Lemma memoryStage_level ext st : level (memoryStage ext st).1 = level st.
Proof. unfold memoryStage. case_match; reflexivity. Qed.

Lemma updateGameMemory_level cfg ext st :
  level (updateGameMemory cfg ext st).1 = level st.
Proof.
  unfold updateGameMemory. destruct (FAST_DEBUG cfg); simpl.
  - destruct (hasLevelGoal st); reflexivity.
  - pose proof (goalStage_level ext st) as H1.
    destruct (goalStage ext st) as [st1 n1]; simpl in H1.
    pose proof (historyStage_level ext st1) as H2.
    destruct (historyStage ext st1) as [st2 n2]; simpl in H2.
    pose proof (memoryStage_level ext st2) as H3.
    destruct (memoryStage ext st2) as [st3 n3]; simpl in *. congruence.
Qed.

Lemma lastN_length {A} k (l : list A) :
  length (lastN k l) = Nat.min k (length l).
Proof. unfold lastN. rewrite length_drop. lia. Qed.

Lemma goalStage_history ext st :
  history (goalStage ext st).1 = history st ∧
  gameMemory (goalStage ext st).1 = gameMemory st.
Proof. unfold goalStage. by destruct (hasLevelGoal st). Qed.

Lemma memoryStage_history ext st :
  history (memoryStage ext st).1 = history st ∧
  (length (gameMemory (memoryStage ext st).1) ≤ 3)%nat.
Proof.
  unfold memoryStage.
  destruct (3 <? Z.of_nat (length (gameMemory st))) eqn:Hc;
    [|apply Z.ltb_ge in Hc]; cbn [fst]; split; try done; simpl; lia.
Qed.

Lemma historyStage_long ext st :
  (4 < length (history st))%nat →
  history (historyStage ext st).1 = lastN 2 (history st) ∧
  gameMemory (historyStage ext st).1
  = gameMemory st ++
    [ {| Mem.level := level st;
         Mem.summary := orElse (fetchMistral (summaryReply ext))
                          (js "Игроки продвигаются вперед");
         Mem.timestamp := summaryNow ext |} ].
Proof.
  intros Hlong. unfold historyStage.
  assert ((4 <? Z.of_nat (length (history st))) = true) as ->
    by (apply Z.ltb_lt; lia).
  done.
Qed.

Lemma historyStage_short ext st :
  (length (history st) ≤ 4)%nat → historyStage ext st = (st, []).
Proof.
  intros Hshort. unfold historyStage.
  assert ((4 <? Z.of_nat (length (history st))) = false) as ->
    by (apply Z.ltb_ge; lia).
  done.
Qed.

(** The compaction block of [updateGameMemory], outside fast-debug mode. *)
Lemma compaction_block (cfg : Config) (ext : Oracle) (st : State) :
  FAST_DEBUG cfg = false →
  (3 < length (gameMemory (memoryBeforeCompaction ext st)))%nat →
  ∃ e calls,
    gameMemory (updateGameMemory cfg ext st).1 = [e] ∧
    Mem.level e = level st ∧
    Mem.timestamp e = compressNow ext ∧
    (updateGameMemory cfg ext st).2
      = calls ++ [ChatCompletion 100 (memoryPrompt (memoryBeforeCompaction ext st))] ∧
    Mem.summary e
    = orElse (fetchMistral (compressReply ext))
        (js "Ключевые события путешествия").
Proof.
  intros Hfast Hlen. unfold memoryBeforeCompaction in *.
  unfold updateGameMemory. rewrite Hfast.
  pose proof (goalStage_level ext st) as H1.
  destruct (goalStage ext st) as [st1 n1]; cbn [fst snd] in *.
  pose proof (historyStage_level ext st1) as H2.
  destruct (historyStage ext st1) as [st2 n2]; cbn [fst snd] in *.
  unfold memoryStage.
  assert ((3 <? Z.of_nat (length (gameMemory st2))) = true) as ->
    by (apply Z.ltb_lt; lia).
  simpl. eexists _, (n1 ++ n2). split; [reflexivity|]. simpl.
  split; [congruence|]. split; [reflexivity|].
  split; [rewrite <- app_assoc; reflexivity|reflexivity].
Qed.


(* ===================================================================== *)
(** ** Frame reasoning on room objects *)
(* ===================================================================== *)

(** Unfold the field updates of the world, and nothing else. *)
Ltac wsimpl :=
  cbn [heap out net rooms socks connectedSockets connectedUsers timers
       nextTimer set_heap set_rooms set_socks set_connectedSockets
       set_connectedUsers set_timers emit request setTimeout clearTimeout
       update_sock forgetSocket fst snd] in *.

(** Every room object of [w] is still there in [w'], related by [P]. *)
Definition heap_rel (P : Room → Room → Prop) (w w' : World) : Prop :=
  ∀ a r, heap w !! a = Some r → ∃ r', heap w' !! a = Some r' ∧ P r r'.

Definition same_level (r r' : Room) : Prop :=
  level (state r') = level (state r).

Definition same_players (r r' : Room) : Prop :=
  players r' = players r.

(** Seats and level are both kept. *)
Definition same_seat_level (r r' : Room) : Prop :=
  players r' = players r ∧ level (state r') = level (state r).

#[local] Instance same_level_refl : Reflexive same_level.
Proof. by intros r. Qed.
#[local] Instance same_level_trans : Transitive same_level.
Proof. unfold same_level. intros r1 r2 r3 H1 H2. congruence. Qed.
#[local] Instance same_players_refl : Reflexive same_players.
Proof. by intros r. Qed.
#[local] Instance same_players_trans : Transitive same_players.
Proof. unfold same_players. intros r1 r2 r3 H1 H2. congruence. Qed.
#[local] Instance same_seat_level_refl : Reflexive same_seat_level.
Proof. by intros r. Qed.
#[local] Instance same_seat_level_trans : Transitive same_seat_level.
Proof. unfold same_seat_level. intros r1 r2 r3 [] []. split; congruence. Qed.

Section HeapRel.
Context (P : Room → Room → Prop) `{!Reflexive P} `{!Transitive P}.

Lemma heap_rel_same w w' : heap w' = heap w → heap_rel P w w'.
Proof. intros Heq a r Ha. exists r. by rewrite Heq. Qed.

Lemma heap_rel_refl w : heap_rel P w w.
Proof. by apply heap_rel_same. Qed.

Lemma heap_rel_trans w1 w2 w3 :
  heap_rel P w1 w2 → heap_rel P w2 w3 → heap_rel P w1 w3.
Proof.
  intros H12 H23 a r Ha.
  destruct (H12 a r Ha) as (r2 & Ha2 & HP2).
  destruct (H23 a r2 Ha2) as (r3 & Ha3 & HP3).
  exists r3. split; [done|]. by transitivity r2.
Qed.

Lemma heap_rel_update a f w :
  (∀ r, P r (f r)) → heap_rel P w (update_room a f w).
Proof.
  intros Hf. unfold update_room.
  destruct (heap w !! a) as [r0|] eqn:Ha; [|apply heap_rel_refl].
  intros b r Hb. wsimpl.
  destruct (decide (a = b)) as [->|Hne].
  - exists (f r0). rewrite list_lookup_insert_eq
      by (by eapply lookup_lt_Some).
    split; [done|]. assert (r = r0) as -> by congruence. apply Hf.
  - exists r. by rewrite list_lookup_insert_ne.
Qed.


End HeapRel.

Lemma heap_rel_weaken (P Q : Room → Room → Prop) w w' :
  (∀ r r', P r r' → Q r r') → heap_rel P w w' → heap_rel Q w w'.
Proof.
  intros HPQ H a r Ha. destruct (H a r Ha) as (r' & ? & ?). eauto.
Qed.

(** *** The narration adapter keeps the level *)

Lemma getGmResponse_level cfg ext st isInitial :
  level (getGmResponse cfg ext st isInitial).1.2 = level st.
Proof.
  unfold getGmResponse. destruct (FAST_DEBUG cfg) eqn:Hfast; [done|].
  destruct (draft cfg).
  - destruct (narrationReply ext) as [|[] [c|]]; reflexivity.
  - pose proof (updateGameMemory_level cfg ext st) as Hl.
    destruct (updateGameMemory cfg ext st) as [st1 n1]. simpl in Hl.
    destruct (narrationReply ext) as [|[] [c|]]; exact Hl.
Qed.

(** What [narrate] does to a world in which the room object exists. *)
Lemma narrate_exists cfg ext rid a isInitial event w room :
  heap w !! a = Some room →
  ∃ text st1 img calls,
    getGmResponse cfg ext (state room) isInitial = (text, st1, calls.1) ∧
    generateImage cfg ext text = (img, calls.2) ∧
    narrate cfg ext rid a isInitial event w =
      (text,
       set_heap (<[a := set_state (push_history (gmLine text) st1) room]> (heap w))
         (emit (ToRoom rid) (event text img) (request (calls.1 ++ calls.2) w))).
Proof.
  intros Ha. unfold narrate. rewrite Ha.
  destruct (getGmResponse cfg ext (state room) isInitial)
    as [[text st1] n1] eqn:Hgm.
  destruct (generateImage cfg ext text) as [img n2] eqn:Himg.
  exists text, st1, img, (n1, n2).
  split; [reflexivity|]. split; [exact Himg|].
  unfold update_room. wsimpl. rewrite Ha. reflexivity.
Qed.

Lemma narrate_missing cfg ext rid a isInitial event w :
  heap w !! a = None → narrate cfg ext rid a isInitial event w = ([], w).
Proof. intros Ha. unfold narrate. by rewrite Ha. Qed.

Lemma heap_rel_narrate cfg ext rid a isInitial event w :
  heap_rel same_seat_level w (narrate cfg ext rid a isInitial event w).2.
Proof.
  destruct (heap w !! a) as [room|] eqn:Ha.
  - destruct (narrate_exists cfg ext rid a isInitial event w room Ha)
      as (text & st1 & img & calls & Hgm & Himg & ->).
    intros b r Hb. wsimpl.
    destruct (decide (a = b)) as [->|Hne].
    + eexists. rewrite list_lookup_insert_eq by (by eapply lookup_lt_Some).
      split; [done|]. assert (r = room) as -> by congruence.
      split; [done|]. simpl.
      pose proof (getGmResponse_level cfg ext (state room) isInitial) as Hl.
      rewrite Hgm in Hl. exact Hl.
    + exists r. by rewrite list_lookup_insert_ne.
  - rewrite narrate_missing by done. apply heap_rel_refl; apply _.
Qed.

Lemma rooms_narrate cfg ext rid a isInitial event w :
  rooms (narrate cfg ext rid a isInitial event w).2 = rooms w.
Proof.
  destruct (heap w !! a) as [room|] eqn:Ha.
  - destruct (narrate_exists cfg ext rid a isInitial event w room Ha)
      as (text & st1 & img & calls & Hgm & Himg & ->). reflexivity.
  - by rewrite narrate_missing.
Qed.

Lemma rooms_update_room a f w : rooms (update_room a f w) = rooms w.
Proof. unfold update_room. by destruct (heap w !! a). Qed.


(** *** Operations that leave the registry alone *)

(** The registry is the same and every room object is related by [P]. *)
Definition kept (P : Room → Room → Prop) (w w' : World) : Prop :=
  rooms w' = rooms w ∧ heap_rel P w w'.

Section Kept.
Context (P : Room → Room → Prop) `{!Reflexive P} `{!Transitive P}.

Lemma kept_same w w' :
  heap w' = heap w → rooms w' = rooms w → kept P w w'.
Proof. intros Hh Hr. split; [done|]. by apply heap_rel_same. Qed.

Lemma kept_refl w : kept P w w.
Proof. by apply kept_same. Qed.

Lemma kept_trans w1 w2 w3 : kept P w1 w2 → kept P w2 w3 → kept P w1 w3.
Proof.
  intros [Hr1 Hh1] [Hr2 Hh2]. split; [congruence|].
  by eapply heap_rel_trans.
Qed.

Lemma kept_update a f w : (∀ r, P r (f r)) → kept P w (update_room a f w).
Proof.
  intros Hf. split; [apply rooms_update_room|]. by apply heap_rel_update.
Qed.
End Kept.

Lemma kept_weaken (P Q : Room → Room → Prop) w w' :
  (∀ r r', P r r' → Q r r') → kept P w w' → kept Q w w'.
Proof. intros HPQ [Hr Hh]. split; [done|]. by eapply heap_rel_weaken. Qed.

Lemma kept_narrate cfg ext rid a isInitial event w :
  kept same_seat_level w (narrate cfg ext rid a isInitial event w).2.
Proof. split; [apply rooms_narrate|apply heap_rel_narrate]. Qed.

(** Peel the outermost world operation off the right-hand side. *)
Ltac kept_peel :=
  lazymatch goal with
  | |- kept _ ?w ?w => apply kept_refl; apply _
  | |- kept _ ?w (emit _ _ ?x) =>
      apply (kept_trans _ w x); [|apply kept_same; [apply _|reflexivity..]]
  | |- kept _ ?w (request _ ?x) =>
      apply (kept_trans _ w x); [|apply kept_same; [apply _|reflexivity..]]
  | |- kept _ ?w (clearTimeout _ ?x) =>
      apply (kept_trans _ w x); [|apply kept_same; [apply _|reflexivity..]]
  | |- kept _ ?w (set_socks _ ?x) =>
      apply (kept_trans _ w x); [|apply kept_same; [apply _|reflexivity..]]
  | |- kept _ ?w (update_sock _ _ ?x) =>
      apply (kept_trans _ w x); [|apply kept_same; [apply _|reflexivity..]]
  | |- kept _ ?w (set_connectedUsers _ ?x) =>
      apply (kept_trans _ w x); [|apply kept_same; [apply _|reflexivity..]]
  | |- kept _ ?w (set_connectedSockets _ ?x) =>
      apply (kept_trans _ w x); [|apply kept_same; [apply _|reflexivity..]]
  | |- kept _ ?w (setTimeout _ ?x).2 =>
      apply (kept_trans _ w x); [|apply kept_same; [apply _|reflexivity..]]
  | |- kept _ ?w (update_room _ _ ?x) =>
      apply (kept_trans _ w x);
      [|apply kept_update; [apply _|intros ?; split; reflexivity]]
  end.

Lemma kept_startGame cfg ext rid w :
  kept same_seat_level w (startGame cfg ext rid w).
Proof.
  unfold startGame.
  destruct (room_at w rid) as [[a room]|]; [|apply kept_refl; apply _].
  match goal with
  | |- context [narrate cfg ext rid a true GameStart ?x] =>
      pose proof (kept_narrate cfg ext rid a true GameStart x) as Hn;
      destruct (narrate cfg ext rid a true GameStart x) as [t w1];
      assert (kept same_seat_level w x) as Hx
  end.
  { destruct (timeout room); repeat kept_peel. }
  simpl in Hn. repeat kept_peel.
  eapply kept_trans; [apply _|exact Hx|exact Hn].
Qed.

Lemma kept_turnToGm rid a w : kept same_seat_level w (turnToGm rid a w).
Proof. unfold turnToGm. repeat kept_peel. Qed.

Lemma kept_nextTurn cfg rid w : kept same_seat_level w (nextTurn cfg rid w).
Proof.
  unfold nextTurn.
  destruct (room_at w rid) as [[a room]|]; [|apply kept_refl; apply _].
  destruct (DEBUG_MODE cfg); [apply kept_turnToGm|].
  case_match; [apply kept_turnToGm|]. repeat kept_peel.
Qed.

Lemma kept_playAction cfg ext id rid a type text w :
  kept same_seat_level w (playAction cfg ext id rid a type text w).
Proof.
  unfold playAction.
  match goal with
  | |- context [narrate cfg ext rid a false GmUpdate ?x] =>
      pose proof (kept_narrate cfg ext rid a false GmUpdate x) as Hn;
      destruct (narrate cfg ext rid a false GmUpdate x) as [t w1];
      assert (kept same_seat_level w x) as Hx by repeat kept_peel
  end.
  simpl in Hn.
  eapply kept_trans; [apply _| |apply kept_nextTurn].
  eapply kept_trans; [apply _|exact Hx|exact Hn].
Qed.

Lemma kept_on_action cfg ext id rid type text w :
  kept same_seat_level w (on_action cfg ext id rid type text w).
Proof.
  unfold on_action.
  destruct (room_at w rid) as [[a room]|]; [|repeat kept_peel].
  case_match; [repeat kept_peel|].
  destruct (draft cfg).
  - case_decide; [repeat kept_peel|apply kept_playAction].
  - eapply kept_trans; [apply _| |apply kept_playAction]. repeat kept_peel.
Qed.

(** *** The event log only grows *)






Lemma emitted_app w w' l : out w' = out w ++ l → emitted w w' = l.
Proof. intros H. unfold emitted. rewrite H. apply drop_app_length. Qed.






Lemma room_at_heap w rid a room :
  room_at w rid = Some (a, room) → rooms w !! rid = Some a ∧ heap w !! a = Some room.
Proof.
  unfold room_at. intros H.
  destruct (rooms w !! rid) as [a'|]; [|done].
  destruct (heap w !! a') as [r|] eqn:Hr; [|done].
  by simplify_eq.
Qed.





(* ===================================================================== *)
(** ** Turn ownership *)
(* ===================================================================== *)



(* ===================================================================== *)
(** ** The GM narration pass *)
(* ===================================================================== *)

Lemma update_room_at a f w r :
  heap w !! a = Some r →
  update_room a f w = set_heap (<[a := f r]> (heap w)) w.
Proof. intros Ha. unfold update_room. by rewrite Ha. Qed.

Lemma lookup_insert_here (h : list Room) a r r0 :
  h !! a = Some r0 → <[a := r]> h !! a = Some r.
Proof. intros H. apply list_lookup_insert_eq. by eapply lookup_lt_Some. Qed.

(** The narration pass, run on a room object that exists. *)
Lemma gmPass_exists cfg ext rid a w room :
  heap w !! a = Some room →
  ∃ text st1 img calls,
    getGmResponse cfg ext (state room) false = (text, st1, calls) ∧
    heap (gmPass cfg ext rid a w)
      = <[a := set_state (afterPass cfg text st1) room]> (heap w) ∧
    out (gmPass cfg ext rid a w) = out w ++ passEvents cfg rid text img st1 ∧
    rooms (gmPass cfg ext rid a w) = rooms w.
Proof.
  intros Ha. unfold gmPass.
  destruct (narrate_exists cfg ext rid a false GmUpdate w room Ha)
    as (text & st1 & img & calls & Hgm & Himg & ->).
  exists text, st1, img, calls.1. split; [exact Hgm|].
  unfold afterPass, passEvents, afterNarration, levelUp, levelCompletePayload.
  destruct (levelCompleted text).
  - erewrite update_room_at by (wsimpl; by eapply lookup_insert_here).
    wsimpl. erewrite lookup_insert_here by (by eapply lookup_insert_here).
    wsimpl. erewrite lookup_insert_here by (by eapply lookup_insert_here).
    unfold modify_state, set_state; cbn [state players timeout].
    case_match.
    + wsimpl. rewrite list_insert_insert_eq, <- !app_assoc. done.
    + erewrite update_room_at
        by (wsimpl; eapply lookup_insert_here; by eapply lookup_insert_here).
      wsimpl. rewrite !list_insert_insert_eq, <- !app_assoc. done.
  - wsimpl. erewrite lookup_insert_here by done.
    unfold modify_state, set_state; cbn [state players timeout].
    case_match.
    + wsimpl. rewrite <- !app_assoc. done.
    + erewrite update_room_at by (wsimpl; by eapply lookup_insert_here).
      wsimpl. rewrite !list_insert_insert_eq, <- !app_assoc. done.
Qed.

Lemma gmPass_missing cfg ext rid a w :
  heap w !! a = None → gmPass cfg ext rid a w = w.
Proof.
  intros Ha. unfold gmPass. rewrite narrate_missing by done.
  assert (levelCompleted [] = false) as -> by (vm_compute; reflexivity).
  by rewrite Ha.
Qed.



Lemma increment_cases n : increment n = n ∨ increment n = n + 1.
Proof. unfold increment. case_match; auto. Qed.

Lemma increment_ge n : n ≤ increment n.
Proof. destruct (increment_cases n); lia. Qed.

Lemma advanceLevel_level cfg st :
  level (advanceLevel cfg st) = increment (level st).
Proof. unfold advanceLevel. by destruct (draft cfg). Qed.

Lemma afterNarration_level cfg text st1 :
  level (afterNarration cfg text st1)
  = if levelCompleted text then increment (level st1) else level st1.
Proof.
  unfold afterNarration. destruct (levelCompleted text).
  - by rewrite advanceLevel_level.
  - reflexivity.
Qed.

Lemma afterPass_level cfg text st1 :
  level (afterPass cfg text st1) = level (afterNarration cfg text st1).
Proof. unfold afterPass. by case_match. Qed.

(* ===================================================================== *)
(** ** Registry handlers and the level *)
(* ===================================================================== *)

Lemma heap_rel_proper (P : Room → Room → Prop) w x x' :
  heap x' = heap x → heap_rel P w x → heap_rel P w x'.
Proof. intros Heq H a r Ha. rewrite Heq. by apply H. Qed.

Ltac same_heap := apply heap_rel_same; try apply _; reflexivity.

#[local] Instance leave_rel_refl id : Reflexive (leave_rel id).
Proof. intros r. unfold leave_rel. auto. Qed.


Lemma heap_rel_leaveRoom cfg id rid a room w :
  heap_rel (leave_rel id) w (leaveRoom cfg id rid a room w).1.
Proof.
  unfold leaveRoom. case_match; [same_heap|].
  set (f := λ r : Room, set_players (removeFirst id (players r)) r).
  assert (heap_rel (leave_rel id) w (update_room a f w)) as Hupd.
  { apply heap_rel_update; [apply _|]. intros r. unfold leave_rel, f. auto. }
  destruct (truthy (usernameOf w id)); destruct (0 <? _);
    destruct (draft cfg);
    (eapply heap_rel_proper; [|exact Hupd]); reflexivity.
Qed.

Lemma heap_rel_on_disconnect cfg id w :
  heap_rel (leave_rel id) w (on_disconnect cfg id w).1.
Proof.
  unfold on_disconnect.
  set (w0 := set_connectedUsers _ w).
  assert (heap_rel (leave_rel id) w w0) as H0 by same_heap.
  destruct (roomIdOf w0 id) as [rid|]; [|done].
  destruct (if truthy (Some rid) then room_at w0 rid else None)
    as [[a room]|]; [|done].
  pose proof (heap_rel_leaveRoom cfg id rid a room w0) as H1.
  intros b r Hb. apply H1. exact Hb.
Qed.

Lemma heap_rel_socket_disconnect cfg id w :
  heap_rel (leave_rel id) w (socket_disconnect cfg id w).1.
Proof.
  unfold socket_disconnect.
  destruct (socks w !! id) as [s|]; [|same_heap].
  destruct (connected s); [|same_heap].
  pose proof (heap_rel_on_disconnect cfg id
                (update_sock id (set_connected false) w)) as H.
  intros b r Hb. apply H. exact Hb.
Qed.

Lemma heap_rel_evictOld cfg id username w :
  ∃ old, old ≠ id ∧ heap_rel (leave_rel old) w (evictOld cfg id username w).1.
Proof.
  unfold evictOld.
  destruct (users_get username (connectedUsers w)) as [old|];
    [|exists (0%N :: id); split;
      [intros H; apply (f_equal length) in H; simpl in H; lia
      |same_heap]].
  case_decide as Hne;
    [exists (0%N :: id); split;
      [intros H; apply (f_equal length) in H; simpl in H; lia
      |same_heap]|].
  exists old. split; [done|].
  destruct (socks w !! old) as [s|]; [|same_heap].
  destruct (connected s); [|same_heap].
  apply heap_rel_socket_disconnect.
Qed.








(* ===================================================================== *)
(** ** Level progression *)
(* ===================================================================== *)

(** A narration pass on room object [a'], seen from room object [a]. *)
Lemma gmPass_step cfg ext rid a' w a room :
  heap w !! a = Some room →
  ∃ room',
    heap (gmPass cfg ext rid a' w) !! a = Some room' ∧
    players room' = players room ∧
    level (state room') =
      (if decide (a = a')
       then if levelCompleted (narrationOf cfg ext room)
            then increment (level (state room)) else level (state room)
       else level (state room)).
Proof.
  intros Ha. destruct (heap w !! a') as [room0|] eqn:Ha'.
  - destruct (gmPass_exists cfg ext rid a' w room0 Ha')
      as (text & st1 & img & calls & Hgm & Hheap & _ & _).
    rewrite Hheap. case_decide as Heq.
    + subst a'. assert (room0 = room) as -> by congruence.
      eexists. split; [by eapply lookup_insert_here|]. split; [done|].
      cbn [state set_state].
      rewrite afterPass_level, afterNarration_level.
      pose proof (getGmResponse_level cfg ext (state room) false) as Hl.
      unfold narrationOf. rewrite Hgm in *. simpl in Hl. simpl. by rewrite Hl.
    + exists room. by rewrite list_lookup_insert_ne by done.
  - rewrite gmPass_missing by done. exists room. split; [done|].
    split; [done|]. case_decide; [congruence|done].
Qed.



(** *** The completion marker *)









(** *** What the game handlers leave alone *)










(** *** The single-player loop of debug mode *)








(* ===================================================================== *)
(** ** Game end *)
(* ===================================================================== *)

Lemma updateGameMemory_turn cfg ext st :
  turn (updateGameMemory cfg ext st).1 = turn st.
Proof.
  unfold updateGameMemory, goalStage, historyStage, memoryStage.
  repeat case_match; simplify_eq; reflexivity.
Qed.

Lemma getGmResponse_turn cfg ext st isInitial :
  turn (getGmResponse cfg ext st isInitial).1.2 = turn st.
Proof.
  unfold getGmResponse. destruct (FAST_DEBUG cfg) eqn:Hfast; [done|].
  destruct (draft cfg).
  - destruct (narrationReply ext) as [|[] [c|]]; reflexivity.
  - pose proof (updateGameMemory_turn cfg ext st) as Hl.
    destruct (updateGameMemory cfg ext st) as [st1 n1]. simpl in Hl.
    destruct (narrationReply ext) as [|[] [c|]]; exact Hl.
Qed.







(* ===================================================================== *)
(** ** Narration outage *)
(* ===================================================================== *)

Lemma getGmResponse_failed cfg ext st isInitial :
  FAST_DEBUG cfg = false →
  narrationFailed ext →
  (getGmResponse cfg ext st isInitial).1.1 = fallbackNarration.
Proof.
  intros Hfast Hfail. unfold getGmResponse. rewrite Hfast.
  destruct (match draft cfg with
            | MemoryAware => updateGameMemory cfg ext st
            | Baseline => (st, [])
            end) as [st1 n1].
  unfold narrationFailed in Hfail.
  destruct (narrationReply ext) as [|[] [c|]]; done.
Qed.

Lemma fallback_has_no_marker : levelCompleted fallbackNarration = false.
Proof. vm_compute. reflexivity. Qed.

(** C10 as stated does not hold on a room that is already above level
    5: with the narration request failing, the narration pass still emits
    the game-end event. *)
Lemma outage_pass_repeats_game_end :
  reachable debugConfig afterEnd ∧
  FAST_DEBUG debugConfig = false ∧
  narrationFailed outage ∧
  timers afterEnd !! 5%nat = Some (GmPass den 0) ∧
  (∃ room, heap afterEnd !! 0%nat = Some room ∧ level (state room) = 6) ∧
  (ToRoom den, GameEnd)
    ∈ emitted afterEnd (step debugConfig (Fire 5 outage) afterEnd).
Proof.
  split; [eexists; reflexivity|]. split; [reflexivity|].
  split; [exact I|]. split; [vm_compute; reflexivity|]. split.
  - eexists. split; vm_compute; reflexivity.
  - apply (bool_decide_unpack _). vm_compute. exact I.
Qed.

(** C10 (amended).  The fallback narration returned when the narration
    request fails does not contain "level complete" in any letter case,
    so a GM narration pass whose request fails leaves the level as it is,
    leaves the history non-empty (its last line is the fallback
    narration) and emits no levelComplete; it emits gameEnd exactly when
    the level already exceeded 5 before the pass. *)
Theorem outage_never_advances_level (cfg : Config) (ext : Oracle)
    (rid : jsstring) (a : nat) (w : World) (room : Room) :
  FAST_DEBUG cfg = false →
  narrationFailed ext →
  heap w !! a = Some room →
  levelCompleted fallbackNarration = false ∧
  narrationOf cfg ext room = fallbackNarration ∧
  ∃ room',
    heap (gmPass cfg ext rid a w) !! a = Some room' ∧
    level (state room') = level (state room) ∧
    last (history (state room')) = Some (gmLine fallbackNarration) ∧
    (∀ t l g, (t, LevelComplete l g) ∉ emitted w (gmPass cfg ext rid a w)) ∧
    (∀ t, (t, GameEnd) ∈ emitted w (gmPass cfg ext rid a w) →
          5 < level (state room)) ∧
    (5 < level (state room) →
     (ToRoom rid, GameEnd) ∈ emitted w (gmPass cfg ext rid a w)).
Proof.
  intros Hfast Hfail Ha.
  split; [apply fallback_has_no_marker|].
  pose proof (getGmResponse_failed cfg ext (state room) false Hfast Hfail)
    as Htext.
  split; [exact Htext|].
  destruct (gmPass_exists cfg ext rid a w room Ha)
    as (text & st1 & img & calls & Hgm & Hheap & Hout & _).
  pose proof (getGmResponse_level cfg ext (state room) false) as Hlevel.
  rewrite Hgm in Htext, Hlevel. simpl in Htext, Hlevel. subst text.
  eexists. split; [rewrite Hheap; by eapply lookup_insert_here|].
  rewrite (emitted_app _ _ _ Hout).
  cbn [state set_state]. unfold passEvents, afterPass, afterNarration.
  rewrite fallback_has_no_marker.
  assert (level (push_history (gmLine fallbackNarration) st1)
          = level (state room)) as Hl by exact Hlevel.
  rewrite Hl.
  split; [by case_match|]. split.
  { assert (∀ st, history (push_history (gmLine fallbackNarration) st)
                  = history st ++ [gmLine fallbackNarration]) as Hh by done.
    case_match; cbn [history set_turn]; rewrite Hh; apply last_snoc. }
  split; [|split].
  - intros t l g. rewrite !elem_of_app, !list_elem_of_singleton.
    intros [Hp|[Hp|Hp]]; [done|by apply elem_of_nil in Hp|].
    by case_match.
  - intros t. rewrite !elem_of_app, !list_elem_of_singleton.
    intros [Hp|[Hp|Hp]]; [done|by apply elem_of_nil in Hp|].
    destruct (5 <? level (state room)) eqn:Hcmp; [|done].
    by apply Z.ltb_lt.
  - intros Hover. apply Z.ltb_lt in Hover. rewrite Hover.
    rewrite !elem_of_app, !list_elem_of_singleton. auto.
Qed.

Lemma outage_never_advances_level_witness :
  FAST_DEBUG standardConfig = false ∧
  narrationFailed outage ∧
  heap lobby !! 0%nat = Some (roomObject lobby 0) ∧
  ∃ room',
    heap (gmPass standardConfig outage hall 0 lobby) !! 0%nat = Some room' ∧
    level (state room') = 1.
Proof.
  assert (heap lobby !! 0%nat = Some (roomObject lobby 0)) as Ha
    by (vm_compute; reflexivity).
  split; [reflexivity|]. split; [exact I|]. split; [exact Ha|].
  destruct (outage_never_advances_level standardConfig outage hall 0%nat
              lobby _ eq_refl I Ha) as (_ & _ & room' & Hroom' & Hl & _).
  exists room'. split; [exact Hroom'|]. rewrite Hl. vm_compute. reflexivity.
Defined.

(* ===================================================================== *)
(** ** The registry invariant *)
(* ===================================================================== *)

Lemma registryOk_kept cfg w w' :
  kept same_players w w' → registryOk cfg w → registryOk cfg w'.
Proof.
  intros [Hrooms Hheap] [Hseats Hinj]. split.
  - intros rid a Hrid. rewrite Hrooms in Hrid.
    destruct (Hseats rid a Hrid) as (r & Ha & Hok).
    destruct (Hheap a r Ha) as (r' & Ha' & Hsame).
    exists r'. split; [done|]. unfold seatsOk, same_players in *.
    by rewrite Hsame.
  - intros rid1 rid2 a. rewrite Hrooms. apply Hinj.
Qed.

Lemma registryOk_same cfg w w' :
  rooms w' = rooms w → heap w' = heap w →
  registryOk cfg w → registryOk cfg w'.
Proof.
  intros Hr Hh. apply registryOk_kept. apply kept_same; [apply _|done..].
Qed.

Lemma registryOk_delete cfg rid w w' :
  rooms w' = delete rid (rooms w) → heap w' = heap w →
  registryOk cfg w → registryOk cfg w'.
Proof.
  intros Hr Hh [Hseats Hinj]. split.
  - intros rid' a. rewrite Hr, Hh. intros H%lookup_delete_Some.
    apply (Hseats rid' a), H.
  - intros rid1 rid2 a. rewrite Hr.
    intros H1%lookup_delete_Some H2%lookup_delete_Some.
    eapply Hinj; [apply H1|apply H2].
Qed.

Lemma required_at_least_1 cfg : 1 ≤ getRequiredPlayersCount cfg.
Proof. unfold getRequiredPlayersCount. case_match; lia. Qed.

Lemma registryOk_register cfg rid id w :
  registryOk cfg w → registryOk cfg (register_room rid (newRoom id) w).
Proof.
  intros [Hseats Hinj]. unfold register_room. split; wsimpl.
  - intros rid' a. rewrite lookup_insert. case_decide as Heq.
    + intros [= <-]. exists (newRoom id). split.
      * rewrite lookup_app_r by lia. by rewrite Nat.sub_diag.
      * split; [done|]. split; [apply NoDup_singleton|].
        pose proof (required_at_least_1 cfg). simpl. lia.
    + intros Hrid. destruct (Hseats rid' a Hrid) as (r & Ha & Hok).
      exists r. split; [by apply lookup_app_l_Some|done].
  - assert (∀ rid' a, rooms w !! rid' = Some a → a ≠ length (heap w))
      as Hold.
    { intros rid' a Hrid ->. destruct (Hseats _ _ Hrid) as (r & Ha & _).
      apply lookup_lt_Some in Ha. lia. }
    intros rid1 rid2 a. rewrite !lookup_insert.
    repeat case_decide; intros H1 H2; simplify_eq; try done.
    + by apply Hold in H2.
    + by apply Hold in H1.
    + by eapply Hinj.
Qed.

(** Peel one operation off the world in a [registryOk] goal. *)
Ltac rok_peel :=
  lazymatch goal with
  | |- registryOk _ (startGame _ _ _ ?x) =>
      apply (registryOk_kept _ x);
      [eapply kept_weaken; [|apply kept_startGame]; by intros ?? []|]
  | |- registryOk _ (register_room _ (newRoom _) ?x) =>
      apply registryOk_register
  | |- registryOk _ (update_room ?a (set_timeout ?h) ?x) =>
      apply (registryOk_kept _ x);
      [apply kept_update; [apply _|intros ?; reflexivity]|]
  | |- registryOk _ (setTimeout _ ?x).2 =>
      apply (registryOk_same _ x); [reflexivity|reflexivity|]
  | |- registryOk _ (?f _ ?x) =>
      apply (registryOk_same _ x); [reflexivity|reflexivity|]
  | |- registryOk _ (?f _ _ ?x) =>
      apply (registryOk_same _ x); [reflexivity|reflexivity|]
  end.

Lemma registryOk_armJoinTimeout cfg rid w :
  registryOk cfg w → registryOk cfg (armJoinTimeout rid w).
Proof.
  intros Hok. unfold armJoinTimeout. wsimpl.
  destruct (rooms w !! rid); repeat rok_peel; done.
Qed.

Lemma registryOk_joinTail cfg ext rid w :
  registryOk cfg w → registryOk cfg (joinTail cfg ext rid w).
Proof.
  intros Hok. unfold joinTail.
  destruct (room_at w rid) as [[a room]|]; [|done].
  case_match; repeat rok_peel; done.
Qed.

Lemma registryOk_on_createRoom cfg ext id username newId w :
  registryOk cfg w → registryOk cfg (on_createRoom cfg ext id username newId w).
Proof.
  intros Hok. unfold on_createRoom. case_match; [by repeat rok_peel|].
  case_match.
  - apply registryOk_armJoinTimeout. by repeat rok_peel.
  - by repeat rok_peel.
Qed.

Lemma removeFirst_length id ps :
  (length (removeFirst id ps) ≤ length ps)%nat.
Proof.
  induction ps as [|p ps IH]; simpl; [lia|]. case_decide; simpl; lia.
Qed.

Lemma removeFirst_sub id ps x : x ∈ removeFirst id ps → x ∈ ps.
Proof.
  induction ps as [|p ps IH]; simpl; [done|].
  case_decide; [by right|].
  intros [->|Hx]%elem_of_cons; [by left|right; auto].
Qed.

Lemma removeFirst_other id ps x : x ≠ id → x ∈ ps → x ∈ removeFirst id ps.
Proof.
  intros Hne. induction ps as [|p ps IH]; simpl; [done|].
  intros [->|Hx]%elem_of_cons.
  - rewrite decide_False by done. by left.
  - case_decide; [done|]. right; auto.
Qed.

Lemma removeFirst_NoDup id ps : NoDup ps → NoDup (removeFirst id ps).
Proof.
  induction 1 as [|p ps Hp Hnd IH]; simpl; [constructor|].
  case_decide; [done|]. constructor; [|done].
  intros Hx%removeFirst_sub. done.
Qed.

Lemma removeFirst_gone id ps : NoDup ps → id ∉ removeFirst id ps.
Proof.
  induction 1 as [|p ps Hp Hnd IH]; simpl; [apply not_elem_of_nil|].
  case_decide as Heq; [by subst|].
  intros [->|Hx]%elem_of_cons; done.
Qed.

Lemma findIndex_found id ps : id ∈ ps ↔ findIndex id ps ≠ -1.
Proof.
  assert (∀ l, -1 ≤ findIndex id l) as Hlow.
  { induction l as [|p l IH]; simpl; [lia|]. repeat case_match; lia. }
  induction ps as [|p ps IH]; simpl.
  - split; [by intros ?%elem_of_nil|done].
  - case_decide as Heq.
    + subst. split; [lia|left].
    + rewrite elem_of_cons, IH. specialize (Hlow ps).
      destruct (findIndex id ps <? 0) eqn:Hc;
        [apply Z.ltb_lt in Hc|apply Z.ltb_ge in Hc];
        (split; [intros [?|?]; [congruence|lia]|intros ?; right; lia]).
Qed.

(** What leaving does to the seats of the room object. *)
Lemma leaveRoom_effect cfg id rid a room w :
  room_at w rid = Some (a, room) →
  id ∈ players room →
  let w' := (leaveRoom cfg id rid a room w).1 in
  heap w' = <[a := set_players (removeFirst id (players room)) room]> (heap w) ∧
  rooms w' = (if 0 <? Z.of_nat (length (removeFirst id (players room)))
              then rooms w else delete rid (rooms w)).
Proof.
  intros Hroom Hin. destruct (room_at_heap _ _ _ _ Hroom) as [Hrid Ha].
  unfold leaveRoom. apply findIndex_found in Hin.
  assert ((findIndex id (players room) =? -1) = false) as ->
    by (by apply Z.eqb_neq).
  rewrite (update_room_at _ _ _ _ Ha).
  destruct (truthy (usernameOf w id)); destruct (0 <? _);
    destruct (draft cfg); split; reflexivity.
Qed.

Lemma registryOk_leaveRoom cfg id rid a room w :
  room_at w rid = Some (a, room) →
  registryOk cfg w →
  registryOk cfg (leaveRoom cfg id rid a room w).1.
Proof.
  intros Hroom Hok. destruct (room_at_heap _ _ _ _ Hroom) as [Hrid Ha].
  destruct (decide (id ∈ players room)) as [Hin|Hout].
  - destruct (leaveRoom_effect cfg id rid a room w Hroom Hin) as [Hh Hr].
    destruct Hok as [Hseats Hinj].
    destruct (Hseats rid a Hrid) as (r0 & Ha0 & Hne & Hnd & Hcap).
    assert (r0 = room) as -> by congruence.
    pose proof (removeFirst_length id (players room)) as Hlen.
    split.
    + intros rid' a' Hrid'. rewrite Hh.
      destruct (0 <? _) eqn:Hrest; rewrite Hr in Hrid'.
      * destruct (decide (a' = a)) as [->|Hneq].
        -- eexists. split; [by eapply lookup_insert_here|].
           unfold seatsOk. cbn [players set_players]. split; [|split].
           ++ apply Z.ltb_lt in Hrest. intros Heq. rewrite Heq in Hrest.
              simpl in Hrest. lia.
           ++ by apply removeFirst_NoDup.
           ++ lia.
        -- rewrite list_lookup_insert_ne by done. by eapply Hseats.
      * apply lookup_delete_Some in Hrid' as [Hneq Hrid'].
        assert (a' ≠ a) by (intros ->; by specialize (Hinj _ _ _ Hrid Hrid')).
        rewrite list_lookup_insert_ne by done. by eapply Hseats.
    + intros rid1 rid2 a'. rewrite Hr. destruct (0 <? _); [apply Hinj|].
      intros H1%lookup_delete_Some H2%lookup_delete_Some.
      eapply Hinj; [apply H1|apply H2].
  - unfold leaveRoom.
    assert ((findIndex id (players room) =? -1) = true) as ->.
    { apply Z.eqb_eq. destruct (decide (findIndex id (players room) = -1));
        [done|]. exfalso. by apply Hout, findIndex_found. }
    by repeat rok_peel.
Qed.

Lemma registryOk_on_disconnect cfg id w :
  registryOk cfg w → registryOk cfg (on_disconnect cfg id w).1.
Proof.
  intros Hok. unfold on_disconnect.
  set (w0 := set_connectedUsers _ w).
  assert (registryOk cfg w0) as H0 by (subst w0; by repeat rok_peel).
  destruct (roomIdOf w0 id) as [rid|]; [|by repeat rok_peel].
  destruct (if truthy (Some rid) then room_at w0 rid else None)
    as [[a room]|] eqn:Hroom; [|by repeat rok_peel].
  apply registryOk_leaveRoom; [|done].
  by destruct (truthy (Some rid)).
Qed.

Lemma registryOk_socket_disconnect cfg id w :
  registryOk cfg w → registryOk cfg (socket_disconnect cfg id w).1.
Proof.
  intros Hok. unfold socket_disconnect.
  destruct (socks w !! id) as [s|]; [|done].
  destruct (connected s); [|done].
  apply registryOk_on_disconnect. by repeat rok_peel.
Qed.

Lemma registryOk_evictOld cfg id username w :
  registryOk cfg w → registryOk cfg (evictOld cfg id username w).1.
Proof.
  intros Hok. unfold evictOld.
  destruct (users_get username (connectedUsers w)) as [old|]; [|done].
  case_decide; [done|].
  destruct (socks w !! old) as [s|]; [|done].
  destruct (connected s); [|done].
  by apply registryOk_socket_disconnect.
Qed.

Lemma rooms_leaveRoom cfg id rid a room w :
  rooms (leaveRoom cfg id rid a room w).1 ⊆ rooms w.
Proof.
  unfold leaveRoom.
  repeat case_match; wsimpl; rewrite ?rooms_update_room;
    try done; apply delete_subseteq.
Qed.

Lemma rooms_socket_disconnect cfg id w :
  rooms (socket_disconnect cfg id w).1 ⊆ rooms w.
Proof.
  unfold socket_disconnect, on_disconnect.
  repeat case_match; wsimpl; try done.
  match goal with
  | |- rooms (leaveRoom ?c ?i ?r ?a ?room ?x).1 ⊆ _ =>
      apply (rooms_leaveRoom c i r a room x)
  end.
Qed.

Lemma rooms_evictOld cfg id username w :
  rooms (evictOld cfg id username w).1 ⊆ rooms w.
Proof.
  unfold evictOld. repeat case_match; try done.
  apply rooms_socket_disconnect.
Qed.

Lemma registryOk_push cfg id rid a room w :
  registryOk cfg w →
  room_at w rid = Some (a, room) →
  id ∉ players room →
  Z.of_nat (length (players room)) < getRequiredPlayersCount cfg →
  registryOk cfg (update_room a (λ r, set_players (players r ++ [id]) r) w).
Proof.
  intros [Hseats Hinj] Hroom Hout Hcap.
  destruct (room_at_heap _ _ _ _ Hroom) as [Hrid Ha].
  rewrite (update_room_at _ _ _ _ Ha). split; wsimpl.
  - intros rid' a' Hrid'. destruct (decide (a' = a)) as [->|Hne].
    + eexists. split; [by eapply lookup_insert_here|].
      destruct (Hseats rid a Hrid) as (r0 & Ha0 & Hne & Hnd & _).
      assert (r0 = room) as -> by congruence.
      unfold seatsOk. cbn [players set_players]. split; [|split].
      * by destruct (players room).
      * apply NoDup_app. split; [done|]. split; [|apply NoDup_singleton].
        intros x Hx ->%list_elem_of_singleton. done.
      * rewrite length_app. simpl. lia.
    + rewrite list_lookup_insert_ne by done. by eapply Hseats.
  - exact Hinj.
Qed.

Lemma registryOk_on_joinRoom cfg ext id rid username w :
  registryOk cfg w → registryOk cfg (on_joinRoom cfg ext id rid username w).
Proof.
  intros Hok. unfold on_joinRoom.
  destruct (room_at w rid) as [[a0 room0]|] eqn:Hroom0.
  - destruct (_ && _) eqn:Hguard; [by repeat rok_peel|].
    pose proof (registryOk_evictOld cfg id username w Hok) as Hok1.
    pose proof (rooms_evictOld cfg id username w) as Hsub.
    destruct (heap_rel_evictOld cfg id username w) as (old & Hold & Hrel).
    destruct (evictOld cfg id username w) as [w1 thrown]. simpl in *.
    destruct thrown; [done|].
    set (w2 := update_sock id _ (set_connectedUsers _ w1)).
    assert (registryOk cfg w2) as Hok2 by (subst w2; by repeat rok_peel).
    change (room_at w2 rid) with (room_at w1 rid).
    destruct (room_at w1 rid) as [[a room]|] eqn:Hroom1; [|done].
    apply registryOk_joinTail.
    destruct (seated id (players room)) eqn:Hseat; [done|]. simpl.
    apply (registryOk_push cfg id rid a room w2); [done|exact Hroom1| |].
    + unfold seated in Hseat. by apply bool_decide_eq_false in Hseat.
    + destruct (room_at_heap _ _ _ _ Hroom0) as [Hrid0 Ha0].
      destruct (room_at_heap _ _ _ _ Hroom1) as [Hrid1 Ha1].
      pose proof (lookup_weaken _ _ _ _ Hrid1 Hsub) as Hrid.
      assert (a = a0) as -> by congruence.
      destruct (Hrel a0 room0 Ha0) as (r' & Ha' & _ & _ & Hplayers).
      assert (r' = room) as -> by congruence.
      unfold seated in Hseat. apply bool_decide_eq_false in Hseat.
      assert (id ∉ players room0) as Hout0.
      { intros Hin. apply Hseat.
        destruct Hplayers as [->| ->]; [done|].
        apply removeFirst_other; [congruence|done]. }
      apply andb_false_iff in Hguard as [Hguard|Hguard].
      * apply Z.leb_gt in Hguard.
        pose proof (removeFirst_length old (players room0)).
        destruct Hplayers as [->| ->]; lia.
      * apply negb_false_iff in Hguard. unfold seated in Hguard.
        by apply bool_decide_eq_true in Hguard.
  - destruct (draft cfg); [by repeat rok_peel|].
    apply registryOk_joinTail. case_match.
    + apply registryOk_armJoinTimeout. by repeat rok_peel.
    + by repeat rok_peel.
Qed.

Lemma registryOk_joinTimeout cfg rid w :
  registryOk cfg w → registryOk cfg (joinTimeout cfg rid w).
Proof.
  intros Hok. unfold joinTimeout.
  destruct (room_at w rid) as [[a room]|]; [|done].
  case_match; [|done].
  by eapply registryOk_delete.
Qed.

Lemma kept_gmPass cfg ext rid a w :
  kept same_players w (gmPass cfg ext rid a w).
Proof.
  split.
  - destruct (heap w !! a) as [room|] eqn:Ha.
    + by destruct (gmPass_exists cfg ext rid a w room Ha)
        as (? & ? & ? & ? & _ & _ & _ & ?).
    + by rewrite gmPass_missing.
  - intros b r Hb.
    destruct (gmPass_step cfg ext rid a w b r Hb) as (r' & ? & ? & _).
    by exists r'.
Qed.

Lemma registryOk_step cfg e w :
  registryOk cfg w → registryOk cfg (step cfg e w).
Proof.
  intros Hok.
  destruct e as [id|id username newId ext|id rid username ext
                |id rid type text ext|id|h ext]; cbn [step].
  - unfold on_connection. repeat case_match; done.
  - case_match; [by apply registryOk_on_createRoom|done].
  - case_match; [by apply registryOk_on_joinRoom|done].
  - case_match; [|done].
    eapply registryOk_kept; [|exact Hok].
    eapply kept_weaken; [|apply kept_on_action]. by intros ?? [].
  - by apply registryOk_socket_disconnect.
  - unfold fire. destruct (timers w !! h) as [[rid a|rid]|]; [| |done].
    + eapply registryOk_kept; [apply kept_gmPass|]. by repeat rok_peel.
    + apply registryOk_joinTimeout. by repeat rok_peel.
Qed.

Lemma registryOk_run cfg es w :
  registryOk cfg w → registryOk cfg (run cfg es w).
Proof.
  revert w. induction es as [|e es IH]; intros w Hok; [done|].
  apply IH. by apply registryOk_step.
Qed.

Lemma registryOk_reachable cfg w : reachable cfg w → registryOk cfg w.
Proof.
  intros [es ->]. apply registryOk_run. split.
  - intros rid a H. unfold emptyWorld in H. cbn [rooms] in H.
    by rewrite lookup_empty in H.
  - intros rid1 rid2 a H. unfold emptyWorld in H. cbn [rooms] in H.
    by rewrite lookup_empty in H.
Qed.

(* ===================================================================== *)
(** ** Room capacity *)
(* ===================================================================== *)

Lemma seats_joinTail cfg ext rid w :
  heap_rel same_seat_level w (joinTail cfg ext rid w).
Proof.
  unfold joinTail.
  destruct (room_at w rid) as [[a room]|]; [|apply heap_rel_refl; apply _].
  case_match.
  - eapply heap_rel_trans; [apply _| |apply kept_startGame]. same_heap.
  - same_heap.
Qed.

(** A join by a connection that is already seated: the seats of the room
    are as before, except that an evicted older connection may have lost
    its own seat. *)
Lemma rejoin_adds_no_seat cfg ext id rid username w a room :
  room_at w rid = Some (a, room) →
  id ∈ players room →
  ∃ room',
    heap (on_joinRoom cfg ext id rid username w) !! a = Some room' ∧
    (players room' = players room ∨
     ∃ old, old ≠ id ∧ players room' = removeFirst old (players room)).
Proof.
  intros Hroom Hin. destruct (room_at_heap _ _ _ _ Hroom) as [Hrid Ha].
  unfold on_joinRoom. rewrite Hroom.
  assert (seated id (players room) = true) as Hseated
    by (by apply bool_decide_eq_true).
  rewrite Hseated, andb_false_r.
  pose proof (rooms_evictOld cfg id username w) as Hsub.
  destruct (heap_rel_evictOld cfg id username w) as (old & Hold & Hrel).
  destruct (evictOld cfg id username w) as [w1 thrown]. simpl in *.
  destruct (Hrel a room Ha) as (r1 & Ha1 & _ & _ & Hplayers).
  assert (players r1 = players room ∨
          ∃ old, old ≠ id ∧ players r1 = removeFirst old (players room))
    as Hseats by (destruct Hplayers; eauto).
  destruct thrown; [by exists r1|].
  set (w2 := update_sock id _ (set_connectedUsers _ w1)).
  change (room_at w2 rid) with (room_at w1 rid).
  destruct (room_at w1 rid) as [[a2 room2]|] eqn:Hroom1; [|by exists r1].
  destruct (room_at_heap _ _ _ _ Hroom1) as [Hrid1 Ha2].
  pose proof (lookup_weaken _ _ _ _ Hrid1 Hsub) as Hrid2.
  assert (a2 = a) as -> by congruence.
  assert (room2 = r1) as -> by congruence.
  assert (seated id (players r1) = true) as ->.
  { apply bool_decide_eq_true.
    destruct Hplayers as [->| ->]; [done|].
    apply removeFirst_other; [congruence|done]. }
  simpl.
  destruct (seats_joinTail cfg ext rid w2 a r1 Ha2) as (r' & Ha' & Hsame & _).
  exists r'. split; [done|]. by rewrite Hsame.
Qed.

(** C6.  (a) A join to an existing room that already has the required
    player count, by a connection that has no seat in it, is rejected with
    the room-full error and changes nothing else.  (b) A join by a
    connection that is already seated adds no seat.  (c) In every state the
    server can reach, no registered room seats a connection twice or has
    more players than the required count (1 in debug mode, 3 otherwise). *)
Theorem room_capacity (cfg : Config) :
  (∀ ext id rid username w a room,
     room_at w rid = Some (a, room) →
     getRequiredPlayersCount cfg ≤ Z.of_nat (length (players room)) →
     id ∉ players room →
     on_joinRoom cfg ext id rid username w = emit (ToSocket id) roomFull w) ∧
  (∀ ext id rid username w a room,
     room_at w rid = Some (a, room) →
     id ∈ players room →
     ∃ room',
       heap (on_joinRoom cfg ext id rid username w) !! a = Some room' ∧
       (players room' = players room ∨
        ∃ old, old ≠ id ∧ players room' = removeFirst old (players room))) ∧
  (∀ w rid a room,
     reachable cfg w →
     room_at w rid = Some (a, room) →
     NoDup (players room) ∧
     Z.of_nat (length (players room)) ≤ getRequiredPlayersCount cfg) ∧
  getRequiredPlayersCount cfg = (if DEBUG_MODE cfg then 1 else 3).
Proof.
  split; [|split; [|split]].
  - intros ext id rid username w a room Hroom Hfull Hout.
    unfold on_joinRoom. rewrite Hroom.
    assert ((getRequiredPlayersCount cfg <=? Z.of_nat (length (players room)))
            = true) as -> by (by apply Z.leb_le).
    assert (seated id (players room) = false) as ->
      by (by apply bool_decide_eq_false).
    reflexivity.
  - intros. by eapply rejoin_adds_no_seat.
  - intros w rid a room Hreach Hroom.
    destruct (room_at_heap _ _ _ _ Hroom) as [Hrid Ha].
    destruct (registryOk_reachable cfg w Hreach) as [Hseats _].
    destruct (Hseats rid a Hrid) as (r & Ha' & _ & Hnd & Hcap).
    assert (r = room) as -> by congruence. done.
  - reflexivity.
Qed.

Lemma room_capacity_witness :
  room_at lobby hall = Some (0%nat, roomObject lobby 0) ∧
  (getRequiredPlayersCount standardConfig
     ≤ Z.of_nat (length (players (roomObject lobby 0)))) ∧
  (dan ∉ players (roomObject lobby 0)) ∧
  on_joinRoom standardConfig outage dan hall (Some (js "dan")) lobby
  = emit (ToSocket dan) roomFull lobby.
Proof.
  assert (room_at lobby hall = Some (0%nat, roomObject lobby 0)) as Hroom
    by (vm_compute; reflexivity).
  assert (getRequiredPlayersCount standardConfig
            ≤ Z.of_nat (length (players (roomObject lobby 0)))) as Hfull
    by (vm_compute; discriminate).
  assert (dan ∉ players (roomObject lobby 0)) as Hout
    by (apply (bool_decide_unpack _); vm_compute; exact I).
  split; [exact Hroom|]. split; [exact Hfull|]. split; [exact Hout|].
  destruct (room_capacity standardConfig) as [Hfullroom _].
  apply (Hfullroom outage dan hall (Some (js "dan")) lobby 0%nat _
           Hroom Hfull Hout).
Defined.

(* ===================================================================== *)
(** ** Disconnects and empty rooms *)
(* ===================================================================== *)

(** C7 as stated does not hold for a connection that sits in two
    rooms: after joining [hall] and then [den], the disconnect of the
    connection leaves its seat in [hall], and [hall] stays registered. *)
Lemma stale_seat_after_disconnect :
  reachable debugConfig inTwoRooms ∧
  live inTwoRooms ann = true ∧
  (∃ room, room_at inTwoRooms hall = Some (0%nat, room) ∧ players room = [ann]) ∧
  strayed = step debugConfig (Disconnect ann) inTwoRooms ∧
  live strayed ann = false ∧
  (∃ room, room_at strayed hall = Some (0%nat, room) ∧ players room = [ann]).
Proof.
  split; [eexists; reflexivity|]. split; [vm_compute; reflexivity|].
  split; [eexists; split; vm_compute; reflexivity|].
  split; [vm_compute; reflexivity|]. split; [vm_compute; reflexivity|].
  eexists; split; vm_compute; reflexivity.
Qed.

(** The clean-up of the disconnect handler is also skipped for a
    connection seated under the empty room id: [socket.roomId && ...] reads
    the empty string as no room at all. *)
Lemma empty_id_seat_survives_disconnect :
  reachable debugConfig unnamedRoom ∧
  roomIdOf unnamedRoom ann = Some [] ∧
  (∃ room, room_at unnamedRoom [] = Some (0%nat, room) ∧
           players room = [ann]) ∧
  live (step debugConfig (Disconnect ann) unnamedRoom) ann = false ∧
  (∃ room, room_at (step debugConfig (Disconnect ann) unnamedRoom) []
           = Some (0%nat, room) ∧
           players room = [ann]).
Proof.
  split; [eexists; reflexivity|]. split; [vm_compute; reflexivity|].
  split; [eexists; split; vm_compute; reflexivity|].
  split; [vm_compute; reflexivity|].
  eexists; split; vm_compute; reflexivity.
Qed.

(** C7 (amended).  Room ids are strings.  When a connection disconnects
    whose [roomId] field is a non-empty id and which is seated in the room
    registered under that id, it is removed from that room's players list,
    and if it held the last seat the room id is deleted from the registry
    in the same handler run (otherwise the room stays registered).  In
    every state the server can reach, each registered room has at least
    one entry in its players list. *)
Theorem disconnect_empties_and_deletes (cfg : Config) :
  (∀ id rid w s a room,
     socks w !! id = Some s →
     connected s = true →
     roomId s = Some rid →
     rid ≠ [] →
     room_at w rid = Some (a, room) →
     id ∈ players room →
     ∃ room',
       heap (step cfg (Disconnect id) w) !! a = Some room' ∧
       players room' = removeFirst id (players room) ∧
       (NoDup (players room) → id ∉ players room') ∧
       (players room' = [] → rooms (step cfg (Disconnect id) w) !! rid = None) ∧
       (players room' ≠ [] →
          rooms (step cfg (Disconnect id) w) !! rid = Some a)) ∧
  (∀ w rid a,
     reachable cfg w →
     rooms w !! rid = Some a →
     ∃ room, heap w !! a = Some room ∧ players room ≠ []).
Proof.
  split.
  - intros id rid w s a room Hs Hconn Hrid Hne Hroom Hin.
    cbn [step]. unfold socket_disconnect. rewrite Hs, Hconn.
    unfold on_disconnect.
    set (w0 := set_connectedUsers _ (update_sock id (set_connected false) w)).
    assert (roomIdOf w0 id = Some rid) as ->.
    { unfold roomIdOf, w0. wsimpl. rewrite lookup_alter_eq, Hs. done. }
    assert (truthy (Some rid) = true) as -> by (by destruct rid).
    change (room_at w0 rid) with (room_at w rid). rewrite Hroom.
    assert (room_at w0 rid = Some (a, room)) as Hroom0 by exact Hroom.
    destruct (leaveRoom_effect cfg id rid a room w0 Hroom0 Hin) as [Hh Hr].
    destruct (room_at_heap _ _ _ _ Hroom) as [Hreg Ha].
    exists (set_players (removeFirst id (players room)) room).
    rewrite Hh, Hr. split; [by eapply lookup_insert_here|].
    cbn [players set_players]. split; [done|].
    split; [apply removeFirst_gone|]. split.
    + intros ->. simpl. apply lookup_delete_eq.
    + intros Hrest. destruct (removeFirst id (players room)); [done|].
      exact Hreg.
  - intros w rid a Hreach Hrid.
    destruct (registryOk_reachable cfg w Hreach) as [Hseats _].
    destruct (Hseats rid a Hrid) as (r & Ha & Hne & _). eauto.
Qed.

Lemma disconnect_empties_and_deletes_witness :
  (∃ s, socks inTwoRooms !! ann = Some s ∧ connected s = true ∧
        roomId s = Some den) ∧
  room_at inTwoRooms den = Some (1%nat, roomObject inTwoRooms 1) ∧
  ann ∈ players (roomObject inTwoRooms 1) ∧
  rooms (step debugConfig (Disconnect ann) inTwoRooms) !! den = None.
Proof.
  assert (socks inTwoRooms !! ann
          = Some {| username := Some (js "ann"); roomId := Some den;
                    connected := true |}) as Hs by (vm_compute; reflexivity).
  assert (room_at inTwoRooms den = Some (1%nat, roomObject inTwoRooms 1))
    as Hroom by (vm_compute; reflexivity).
  assert (ann ∈ players (roomObject inTwoRooms 1)) as Hin
    by (apply (bool_decide_unpack _); vm_compute; exact I).
  split; [eexists; split; [exact Hs|split; reflexivity]|].
  split; [exact Hroom|]. split; [exact Hin|].
  destruct (disconnect_empties_and_deletes debugConfig) as [Hleave _].
  destruct (Hleave ann den inTwoRooms _ 1%nat _ Hs eq_refl eq_refl
              ltac:(discriminate) Hroom Hin)
    as (room' & _ & Hrest & _ & Hdel & _).
  apply Hdel. rewrite Hrest. vm_compute. reflexivity.
Defined.

(* ===================================================================== *)
(** ** Chat messages *)
(* ===================================================================== *)

(** In the baseline draft an accepted 'say' action is a broadcast of the
    message and nothing else. *)
Lemma baseline_say_is_chat_only cfg ext id rid text w a room :
  draft cfg = Baseline →
  room_at w rid = Some (a, room) →
  on_action cfg ext id rid (js "say") text w
  = emit (ToRoom rid) (SayMessage (usernameOf w id) text) w.
Proof.
  intros Hdraft Hroom. unfold on_action, DEBUG_MODE.
  rewrite Hroom, Hdraft, orb_true_r. cbn [orb negb].
  by rewrite decide_True.
Qed.

Example baseline_say_example :
  step baselineConfig
    (Action (js "sock-solo") (js "den") (js "say") (js "привет") outage)
    baselineDen
  = emit (ToRoom (js "den")) (SayMessage (Some (js "solo")) (js "привет"))
      baselineDen.
Proof.
  assert (live baselineDen (js "sock-solo") = true) as Hlive
    by (vm_compute; reflexivity).
  cbn [step]. rewrite Hlive.
  erewrite baseline_say_is_chat_only;
    [|reflexivity|vm_compute; reflexivity].
  f_equal; vm_compute; reflexivity.
Qed.

(** C2.  In the memory-aware draft a 'say' action does not stop at the
    chat broadcast: evaluated on seat 1 of a started three-player room, it
    also pushes the chat line and a narration on the history, asks the
    services for a narration and an image, broadcasts gmUpdate and passes
    the turn to seat 2. *)
Theorem say_runs_the_gm_pipeline :
  draft standardConfig = MemoryAware ∧
  turn (state (roomObject lobby 0)) = PlayerNo 1 ∧
  turn (state (roomObject (step standardConfig sayHello lobby) 0)) = PlayerNo 2 ∧
  history (state (roomObject (step standardConfig sayHello lobby) 0))
  = history (state (roomObject lobby 0))
    ++ [js "ann say: привет"; js "GM: Эхо отвечает."] ∧
  emitted lobby (step standardConfig sayHello lobby)
  = [(ToRoom hall, SayMessage (Some (js "ann")) (js "привет"));
     (ToRoom hall,
      GmUpdate (js "Эхо отвечает.")
        (js "https://dungeon.example/images/image_1700000001000.png"));
     (ToRoom hall, PlayerTurn 2)] ∧
  length (net (step standardConfig sayHello lobby))
  = (length (net lobby) + 2)%nat.
Proof. repeat split; vm_compute; reflexivity. Qed.

(* ===================================================================== *)
(** ** Fast-debug mode never builds a game memory *)
(* ===================================================================== *)

(** Strip the operations that leave the store of room objects alone. *)
Ltac quiet_strip :=
  match goal with
  | |- noMemory ?t =>
      let h := eval cbn [heap set_rooms set_socks set_connectedSockets
                         set_connectedUsers set_timers emit request
                         setTimeout clearTimeout update_sock forgetSocket
                         fst snd] in (heap t) in
      lazymatch h with
      | heap ?x =>
          lazymatch x with
          | t => fail
          | _ => change (noMemory x)
          end
      end
  end.

Section Quiet.
Context (cfg : Config) (Hfast : FAST_DEBUG cfg = true).

Lemma noMemory_update a f w :
  (∀ r, gameMemory (state (f r)) = gameMemory (state r)) →
  noMemory w → noMemory (update_room a f w).
Proof.
  intros Hf Hw. unfold update_room.
  destruct (heap w !! a) as [r|] eqn:Ha; [|done].
  unfold noMemory in *. wsimpl. apply Forall_insert; [done|].
  rewrite Hf. by eapply (Forall_lookup_1 _ _ _ _ Hw).
Qed.

Lemma noMemory_register rid id w :
  noMemory w → noMemory (register_room rid (newRoom id) w).
Proof.
  intros Hw. unfold noMemory, register_room in *. wsimpl.
  apply Forall_app. split; [done|]. by constructor.
Qed.

Lemma noMemory_narrate rid a ext isInitial event w :
  noMemory w → noMemory (narrate cfg ext rid a isInitial event w).2.
Proof.
  intros Hw. destruct (heap w !! a) as [room|] eqn:Ha.
  - destruct (narrate_exists cfg ext rid a isInitial event w room Ha)
      as (text & st1 & img & calls & Hgm & Himg & ->).
    unfold getGmResponse in Hgm. rewrite Hfast in Hgm.
    injection Hgm as _ <- _.
    unfold noMemory in *. wsimpl. apply Forall_insert; [done|].
    cbn [state set_state gameMemory push_history set_history].
    by eapply (Forall_lookup_1 _ _ _ _ Hw).
  - by rewrite narrate_missing.
Qed.

(** Peel primitive operations until an assumption closes the goal. *)
Ltac quiet :=
  repeat first
    [ assumption
    | quiet_strip
    | apply noMemory_register
    | apply noMemory_update; [intros ?; reflexivity|] ].

Lemma noMemory_startGame ext rid w :
  noMemory w → noMemory (startGame cfg ext rid w).
Proof.
  intros Hw. unfold startGame.
  destruct (room_at w rid) as [[a room]|]; [|done].
  match goal with
  | |- context [narrate cfg ext rid a true GameStart ?x] =>
      assert (noMemory x) as Hx by (case_match; quiet);
      pose proof (noMemory_narrate rid a ext true GameStart x Hx) as Hn;
      destruct (narrate cfg ext rid a true GameStart x) as [t w1]
  end.
  simpl in Hn. quiet.
Qed.

Lemma noMemory_nextTurn rid w : noMemory w → noMemory (nextTurn cfg rid w).
Proof.
  intros Hw. unfold nextTurn, turnToGm. repeat case_match; quiet.
Qed.

Lemma noMemory_playAction ext id rid a type text w :
  noMemory w → noMemory (playAction cfg ext id rid a type text w).
Proof.
  intros Hw. unfold playAction.
  match goal with
  | |- context [narrate cfg ext rid a false GmUpdate ?y] =>
      assert (noMemory y) as Hy by quiet;
      pose proof (noMemory_narrate rid a ext false GmUpdate y Hy) as Hn;
      destruct (narrate cfg ext rid a false GmUpdate y) as [t w1]
  end.
  by apply noMemory_nextTurn.
Qed.

Lemma noMemory_on_action ext id rid type text w :
  noMemory w → noMemory (on_action cfg ext id rid type text w).
Proof.
  intros Hw. unfold on_action.
  repeat case_match; try apply noMemory_playAction; quiet.
Qed.

Lemma noMemory_gmPass ext rid a w :
  noMemory w → noMemory (gmPass cfg ext rid a w).
Proof.
  intros Hw. unfold gmPass.
  pose proof (noMemory_narrate rid a ext false GmUpdate w Hw) as Hn.
  destruct (narrate cfg ext rid a false GmUpdate w) as [t w1]. simpl in Hn.
  assert (noMemory (levelUp cfg rid a w1)) as Hup.
  { unfold levelUp.
    assert (noMemory (update_room a (modify_state (advanceLevel cfg)) w1)).
    { apply noMemory_update; [|done]. intros r. unfold advanceLevel.
      by destruct (draft cfg). }
    case_match; quiet. }
  repeat case_match; quiet.
Qed.

Lemma noMemory_socket_disconnect id w :
  noMemory w → noMemory (socket_disconnect cfg id w).1.
Proof.
  intros Hw. unfold socket_disconnect, on_disconnect, leaveRoom.
  repeat case_match; quiet.
Qed.

Lemma noMemory_joinTail ext rid w :
  noMemory w → noMemory (joinTail cfg ext rid w).
Proof.
  intros Hw. unfold joinTail.
  repeat case_match; try apply noMemory_startGame; quiet.
Qed.

Lemma noMemory_armJoinTimeout rid w :
  noMemory w → noMemory (armJoinTimeout rid w).
Proof.
  intros Hw. unfold armJoinTimeout. cbn [setTimeout].
  case_match; quiet.
Qed.

Lemma noMemory_on_createRoom ext id username newId w :
  noMemory w → noMemory (on_createRoom cfg ext id username newId w).
Proof.
  intros Hw. unfold on_createRoom.
  repeat case_match;
    try apply noMemory_armJoinTimeout; try apply noMemory_startGame; quiet.
Qed.

Lemma noMemory_on_joinRoom ext id rid username w :
  noMemory w → noMemory (on_joinRoom cfg ext id rid username w).
Proof.
  intros Hw. unfold on_joinRoom.
  destruct (room_at w rid) as [[a0 room0]|].
  - case_match; [quiet|].
    assert (noMemory (evictOld cfg id username w).1) as Hev.
    { unfold evictOld. repeat case_match; try done.
      by apply noMemory_socket_disconnect. }
    destruct (evictOld cfg id username w) as [w1 thrown]. simpl in Hev.
    destruct thrown; [done|].
    repeat case_match; try apply noMemory_joinTail; quiet.
  - destruct (draft cfg); [quiet|].
    apply noMemory_joinTail.
    case_match; [apply noMemory_armJoinTimeout|]; quiet.
Qed.

Lemma noMemory_step e w : noMemory w → noMemory (step cfg e w).
Proof.
  intros Hw.
  destruct e as [id|id username newId ext|id rid username ext
                |id rid type text ext|id|h ext]; cbn [step].
  - unfold on_connection. repeat case_match; quiet.
  - case_match; [|done]. by apply noMemory_on_createRoom.
  - case_match; [|done]. by apply noMemory_on_joinRoom.
  - case_match; [|done]. by apply noMemory_on_action.
  - by apply noMemory_socket_disconnect.
  - unfold fire. destruct (timers w !! h) as [[rid a|rid]|]; [| |done].
    + apply noMemory_gmPass. quiet.
    + unfold joinTimeout. repeat case_match; quiet.
Qed.

Lemma noMemory_reachable w : reachable cfg w → noMemory w.
Proof.
  intros [es ->].
  assert (noMemory emptyWorld) as H0 by constructor.
  revert H0. generalize emptyWorld.
  induction es as [|e es IH]; intros w Hw; [done|].
  apply IH. by apply noMemory_step.
Qed.

End Quiet.

(* ===================================================================== *)
(** ** Memory compaction *)
(* ===================================================================== *)

(** *** Trimmed replies *)

Lemma trimStart_blank pre s : blank pre → trimStart (pre ++ s) = trimStart s.
Proof.
  induction 1 as [|c pre Hc _ IH]; [done|]. simpl. by rewrite Hc.
Qed.

Lemma trimStart_keeps c s : isSpace c = false → trimStart (c :: s) = c :: s.
Proof. intros Hc. simpl. by rewrite Hc. Qed.

Lemma trim_trimsTo content core : trimsTo content core → trim content = core.
Proof.
  intros (pre & post & first & rest & front & final
          & -> & Hpre & Hpost & Hfirst & Hns1 & Hlast & Hns2).
  unfold trim. rewrite trimStart_blank by done.
  rewrite Hfirst at 1. rewrite <- app_comm_cons, trimStart_keeps by done.
  rewrite app_comm_cons, <- Hfirst, reverse_app.
  rewrite trimStart_blank by (by apply Forall_reverse).
  rewrite Hlast at 1. rewrite reverse_app, reverse_singleton.
  cbn [app]. rewrite trimStart_keeps by done.
  rewrite reverse_cons, reverse_involutive. by rewrite <- Hlast.
Qed.

Lemma trim_blank content : blank content → trim content = [].
Proof.
  intros Hblank. unfold trim.
  rewrite <- (app_nil_r content), trimStart_blank by done. reflexivity.
Qed.

(** The helper requests of the summarizer answer as [answerOr] says. *)
Lemma fetchMistral_answer fallback reply answer :
  answerOr fallback reply answer →
  fallback ≠ [] →
  orElse (fetchMistral reply) fallback = answer.
Proof.
  intros [ok content core Hcore|ok content Hblank|ok|] Hfb; cbn [fetchMistral].
  - rewrite (trim_trimsTo _ _ Hcore).
    destruct Hcore as (_ & _ & first & rest & _ & _ & _ & _ & _ & -> & _).
    reflexivity.
  - by rewrite trim_blank.
  - reflexivity.
  - reflexivity.
Qed.

Lemma trimStart_cases s :
  ∃ pre, s = pre ++ trimStart s ∧ blank pre ∧
         (trimStart s = [] ∨
          ∃ c rest, trimStart s = c :: rest ∧ isSpace c = false).
Proof.
  induction s as [|c s (pre & Hs & Hpre & Hrest)].
  - exists []. split; [done|]. split; [constructor|by left].
  - simpl. destruct (isSpace c) eqn:Hc.
    + exists (c :: pre). split; [by rewrite Hs at 1|].
      split; [by constructor|done].
    + exists []. split; [done|]. split; [constructor|]. right. eauto.
Qed.

(** Every reply is either blank or has a non-empty trimmed core, so
    [answerOr] gives an answer for every outcome of a request. *)
Lemma answerOr_total fallback reply : ∃ answer, answerOr fallback reply answer.
Proof.
  destruct reply as [|ok [content|]];
    [eexists; constructor| |eexists; constructor].
  destruct (trimStart_cases content) as (pre & Hs & Hpre & Hrest).
  destruct Hrest as [Hnil|(first & rest & Hcons & Hns1)].
  { exists fallback. apply answer_blank.
    rewrite Hs, Hnil, app_nil_r. exact Hpre. }
  destruct (trimStart_cases (reverse (trimStart content)))
    as (post & Hr & Hpost & Hrest2).
  destruct Hrest2 as [Hnil|(final & front & Hcons2 & Hns2)].
  { rewrite Hnil, app_nil_r in Hr.
    assert (blank (trimStart content)) as Hb.
    { rewrite <- (reverse_involutive (trimStart content)), Hr.
      by apply Forall_reverse. }
    rewrite Hcons in Hb. apply Forall_cons in Hb as [Hb _]. congruence. }
  assert (trimStart content = trim content ++ reverse post) as Hcore.
  { unfold trim. rewrite <- reverse_app, <- Hr. by rewrite reverse_involutive. }
  assert (trim content = reverse front ++ [final]) as Hlast.
  { unfold trim. by rewrite Hcons2, reverse_cons. }
  exists (trim content). apply answer_text.
  exists pre, (reverse post), first.
  destruct (trim content) as [|c core] eqn:Htrim.
  { by destruct (reverse front). }
  exists core, (reverse front), final.
  rewrite Hcons in Hcore. injection Hcore as -> Hrest.
  split; [by rewrite Hs at 1; rewrite Hcons, Hrest|].
  split; [done|]. split; [by apply Forall_reverse|done].
Qed.

(** The memory as the compaction block finds it. *)
Lemma memoryBeforeCompaction_memory ext st :
  ((4 < length (history st))%nat →
   gameMemory (memoryBeforeCompaction ext st)
   = gameMemory st ++
     [ {| Mem.level := level st;
          Mem.summary := orElse (fetchMistral (summaryReply ext))
                           (js "Игроки продвигаются вперед");
          Mem.timestamp := summaryNow ext |} ]) ∧
  ((length (history st) ≤ 4)%nat →
   gameMemory (memoryBeforeCompaction ext st) = gameMemory st).
Proof.
  unfold memoryBeforeCompaction.
  destruct (goalStage_history ext st) as [Hh Hm].
  pose proof (goalStage_level ext st) as Hl.
  destruct (goalStage ext st) as [st1 n1]. cbn [fst] in *.
  split; intros Hlen.
  - destruct (historyStage_long ext st1) as [_ ->]; [by rewrite Hh|].
    by rewrite Hm, Hl.
  - rewrite historyStage_short by (by rewrite Hh). done.
Qed.

Lemma memoryPrompt_eq st :
  memoryPrompt st
  = js "Сожми эти воспоминания в одно краткое предложение:"
    ++ [10%N] ++ join [10%N] (Mem.summary <$> gameMemory st).
Proof. unfold memoryPrompt, newline. reflexivity. Qed.

Lemma summaryFallback_nonempty : js "Игроки продвигаются вперед" ≠ [].
Proof. vm_compute. discriminate. Qed.

Lemma compressFallback_nonempty : js "Ключевые события путешествия" ≠ [].
Proof. vm_compute. discriminate. Qed.

(** C8.  Outside fast-debug mode: whenever [updateGameMemory] runs on a
    room whose memory has more than 3 entries, or has 3 entries and gets
    a fourth from the history block of the same run, the memory is left
    with exactly one entry.  Its level is the room's current level and its
    timestamp the current time.  The last request of the run asks for the
    compression of all previous summaries (those of the room, followed by
    the one just added), one per line, and the entry's summary is the
    reply to it without the white space around it, or the literal fallback
    when the reply is blank, carries no content, or the request failed.  In
    fast-debug mode, where the summarizer is skipped, no room the server
    can reach has any memory entry, so there is never a memory beyond 3
    entries. *)
Theorem memory_compaction (cfg : Config) :
  (FAST_DEBUG cfg = false →
   ∀ ext st,
     (3 < length (gameMemory st))%nat ∨
     ((3 ≤ length (gameMemory st))%nat ∧ (4 < length (history st))%nat) →
     ∃ e calls previous,
       gameMemory (updateGameMemory cfg ext st).1 = [e] ∧
       Mem.level e = level st ∧
       Mem.timestamp e = compressNow ext ∧
       ((length (history st) ≤ 4)%nat →
        previous = Mem.summary <$> gameMemory st) ∧
       ((4 < length (history st))%nat →
        ∃ added,
          previous = (Mem.summary <$> gameMemory st) ++ [added] ∧
          ∀ answer,
            answerOr (js "Игроки продвигаются вперед") (summaryReply ext)
              answer →
            added = answer) ∧
       (updateGameMemory cfg ext st).2
       = calls ++
         [ChatCompletion 100
            (js "Сожми эти воспоминания в одно краткое предложение:"
             ++ [10%N] ++ join [10%N] previous)] ∧
       (∀ answer,
          answerOr (js "Ключевые события путешествия") (compressReply ext)
            answer →
          Mem.summary e = answer)) ∧
  (FAST_DEBUG cfg = true →
   ∀ w a room,
     reachable cfg w → heap w !! a = Some room →
     gameMemory (state room) = []).
Proof.
  split.
  - intros Hfast ext st Hlen.
    destruct (memoryBeforeCompaction_memory ext st) as [Hlong Hshort].
    destruct (compaction_block cfg ext st Hfast)
      as (e & calls & Hmem & Hlevel & Htime & Hcalls & Hsummary).
    { destruct (decide (4 < length (history st))%nat) as [H|H].
      - rewrite Hlong, length_app by done. simpl. lia.
      - rewrite Hshort by lia. lia. }
    exists e, calls,
      (Mem.summary <$> gameMemory (memoryBeforeCompaction ext st)).
    split; [done|]. split; [done|]. split; [done|].
    split; [intros H; by rewrite Hshort|]. split.
    { intros H. rewrite Hlong, fmap_app by done. eexists.
      split; [reflexivity|]. intros answer Hanswer. cbn [Mem.summary].
      apply fetchMistral_answer; [done|apply summaryFallback_nonempty]. }
    rewrite memoryPrompt_eq in Hcalls. split; [exact Hcalls|].
    intros answer Hanswer. rewrite Hsummary.
    apply fetchMistral_answer; [done|apply compressFallback_nonempty].
  - intros Hfast w a room Hreach Ha.
    pose proof (noMemory_reachable cfg Hfast w Hreach) as Hquiet.
    by eapply (Forall_lookup_1 _ _ _ _ Hquiet).
Qed.

Lemma memory_compaction_witness :
  FAST_DEBUG standardConfig = false ∧
  ((3 ≤ length (gameMemory crowdedState))%nat ∧
   (4 < length (history crowdedState))%nat) ∧
  gameMemory (updateGameMemory standardConfig padded crowdedState).1
  = [ {| Mem.level := 2; Mem.summary := js "Долгий путь";
         Mem.timestamp := 1700000000500 |} ] ∧
  last (updateGameMemory standardConfig padded crowdedState).2
  = Some (ChatCompletion 100
            (js "Сожми эти воспоминания в одно краткое предложение:"
             ++ [10%N] ++ js "one" ++ [10%N] ++ js "two" ++ [10%N]
             ++ js "three" ++ [10%N] ++ js "Герои идут")).
Proof.
  assert ((3 ≤ length (gameMemory crowdedState))%nat ∧
          (4 < length (history crowdedState))%nat) as Hlen
    by (vm_compute; lia).
  split; [reflexivity|]. split; [exact Hlen|].
  destruct (memory_compaction standardConfig) as [Hcompact _].
  destruct (Hcompact eq_refl padded crowdedState (or_intror Hlen))
    as (e & calls & previous & Hmem & Hlevel & Htime & _ & Hprev & Hcalls
        & Hsummary).
  assert (trimsTo (js "  Долгий путь ") (js "Долгий путь")) as Hcore.
  { exists (js "  "), (js " "), 1044%N, (js "олгий путь"), (js "Долгий пут"),
      1100%N.
    split; [vm_compute; reflexivity|].
    split; [apply (bool_decide_unpack _); vm_compute; exact I|].
    split; [apply (bool_decide_unpack _); vm_compute; exact I|].
    repeat split; vm_compute; reflexivity. }
  assert (trimsTo (js " Герои идут ") (js "Герои идут")) as Hadded.
  { exists (js " "), (js " "), 1043%N, (js "ерои идут"), (js "Герои иду"),
      1090%N.
    split; [vm_compute; reflexivity|].
    split; [apply (bool_decide_unpack _); vm_compute; exact I|].
    split; [apply (bool_decide_unpack _); vm_compute; exact I|].
    repeat split; vm_compute; reflexivity. }
  split.
  - rewrite Hmem. destruct e as [l s t]. cbn [Mem.level Mem.timestamp
      Mem.summary] in *.
    rewrite Hlevel, Htime, (Hsummary _ (answer_text _ true _ _ Hcore)).
    reflexivity.
  - destruct (Hprev (proj2 Hlen)) as (added & -> & Hans).
    rewrite Hcalls, last_snoc, (Hans _ (answer_text _ true _ _ Hadded)).
    vm_compute. reflexivity.
Defined.

(* ===================================================================== *)
(** ** Invariants of room objects *)
(* ===================================================================== *)

(** Strip the operations that leave the store of room objects alone. *)
Ltac all_strip :=
  match goal with
  | |- heapAll ?Q ?t =>
      let h := eval cbn [heap set_rooms set_socks set_connectedSockets
                         set_connectedUsers set_timers emit request
                         setTimeout clearTimeout update_sock forgetSocket
                         fst snd] in (heap t) in
      lazymatch h with
      | heap ?x =>
          lazymatch x with
          | t => fail
          | _ => change (heapAll Q x)
          end
      end
  end.

Lemma heapAll_update (Q : Room → Prop) a f w :
  (∀ r, heap w !! a = Some r → Q r → Q (f r)) →
  heapAll Q w → heapAll Q (update_room a f w).
Proof.
  intros Hf Hw. unfold update_room.
  destruct (heap w !! a) as [r|] eqn:Ha; [|done].
  unfold heapAll in *. wsimpl. apply Forall_insert; [done|].
  apply Hf; [done|]. by eapply (Forall_lookup_1 _ _ _ _ Hw).
Qed.

(** A property of room objects that every mutation made by the handlers
    keeps holds in every state the server can reach. *)
Section RoomInvariant.
Context (cfg : Config) (Q : Room → Prop).
Context (Q_new : ∀ id, Q (newRoom id)).
Context (Q_players : ∀ r ps, Q r → Q (set_players ps r)).
Context (Q_timeout : ∀ r h, Q r → Q (set_timeout h r)).
Context (Q_gm : ∀ r, Q r → Q (modify_state (set_turn GmTurnNow) r)).
Context (Q_first : ∀ r, Q r → Q (modify_state (set_turn (PlayerNo 1)) r)).
Context (Q_next : ∀ r, Q r →
  Q (modify_state (set_turn (PlayerNo (turnNumber (turn (state r)) + 1))) r)).
Context (Q_level : ∀ r, Q r → Q (modify_state (advanceLevel cfg) r)).
Context (Q_narrate : ∀ r ext isInitial text st1 calls,
  Q r →
  getGmResponse cfg ext (state r) isInitial = (text, st1, calls) →
  Q (set_state (push_history (gmLine text) st1) r)).
Context (Q_play : ∀ r ext line text st1 calls,
  Q r →
  getGmResponse cfg ext (push_history line (state r)) false
    = (text, st1, calls) →
  Q (set_state (push_history (gmLine text) st1) r)).

Lemma heapAll_register rid id w :
  heapAll Q w → heapAll Q (register_room rid (newRoom id) w).
Proof.
  intros Hw. unfold heapAll, register_room in *. wsimpl.
  apply Forall_app. split; [done|]. by constructor.
Qed.

Lemma heapAll_narrate rid a ext isInitial event w :
  heapAll Q w → heapAll Q (narrate cfg ext rid a isInitial event w).2.
Proof.
  intros Hw. destruct (heap w !! a) as [room|] eqn:Ha.
  - destruct (narrate_exists cfg ext rid a isInitial event w room Ha)
      as (text & st1 & img & calls & Hgm & Himg & ->).
    unfold heapAll in *. wsimpl. apply Forall_insert; [done|].
    eapply Q_narrate; [|exact Hgm].
    by eapply (Forall_lookup_1 _ _ _ _ Hw).
  - by rewrite narrate_missing.
Qed.

(** Peel primitive operations until an assumption closes the goal. *)
Ltac all_peel :=
  repeat first
    [ assumption
    | all_strip
    | apply heapAll_register
    | apply heapAll_update;
      [intros ? _ ?; first [by apply Q_players | by apply Q_timeout
                           | by apply Q_gm | by apply Q_first
                           | by apply Q_level]|] ].

Lemma heapAll_startGame ext rid w :
  heapAll Q w → heapAll Q (startGame cfg ext rid w).
Proof.
  intros Hw. unfold startGame.
  destruct (room_at w rid) as [[a room]|]; [|done].
  match goal with
  | |- context [narrate cfg ext rid a true GameStart ?x] =>
      assert (heapAll Q x) as Hx by (case_match; all_peel);
      pose proof (heapAll_narrate rid a ext true GameStart x Hx) as Hn;
      destruct (narrate cfg ext rid a true GameStart x) as [t w1]
  end.
  simpl in Hn. all_peel.
Qed.

Lemma heapAll_nextTurn rid w :
  heapAll Q w → heapAll Q (nextTurn cfg rid w).
Proof.
  intros Hw. unfold nextTurn.
  destruct (room_at w rid) as [[a room]|] eqn:Hroom; [|done].
  destruct (room_at_heap _ _ _ _ Hroom) as [_ Ha].
  assert (heapAll Q (turnToGm rid a w)) as Hgm
    by (unfold turnToGm; all_peel).
  destruct (DEBUG_MODE cfg); [done|]. case_match; [done|].
  all_strip. apply heapAll_update; [|done].
  intros r Hr Hq. assert (r = room) as -> by congruence.
  by apply Q_next.
Qed.

Lemma heapAll_playAction ext id rid a type text w :
  heapAll Q w → heapAll Q (playAction cfg ext id rid a type text w).
Proof.
  intros Hw. unfold playAction. set (line := _ ++ _).
  destruct (heap w !! a) as [room|] eqn:Ha.
  - rewrite (update_room_at _ _ _ _ Ha).
    match goal with
    | |- context [narrate cfg ext rid a false GmUpdate ?x] =>
        destruct (narrate_exists cfg ext rid a false GmUpdate x
                    (modify_state (push_history line) room))
          as (t & st1 & img & calls & Hgm & Himg & ->);
        [wsimpl; by eapply lookup_insert_here|]
    end.
    apply heapAll_nextTurn. unfold heapAll in *. wsimpl.
    rewrite list_insert_insert_eq. apply Forall_insert; [done|].
    change (Q (set_state (push_history (gmLine t) st1) room)).
    eapply Q_play; [|exact Hgm].
    by eapply (Forall_lookup_1 _ _ _ _ Hw).
  - unfold update_room. rewrite Ha. rewrite narrate_missing by done.
    by apply heapAll_nextTurn.
Qed.

Lemma heapAll_on_action ext id rid type text w :
  heapAll Q w → heapAll Q (on_action cfg ext id rid type text w).
Proof.
  intros Hw. unfold on_action.
  repeat case_match; try apply heapAll_playAction; all_peel.
Qed.

Lemma heapAll_gmPass ext rid a w :
  heapAll Q w → heapAll Q (gmPass cfg ext rid a w).
Proof.
  intros Hw. unfold gmPass.
  pose proof (heapAll_narrate rid a ext false GmUpdate w Hw) as Hn.
  destruct (narrate cfg ext rid a false GmUpdate w) as [t w1]. simpl in Hn.
  assert (heapAll Q (levelUp cfg rid a w1)) as Hup.
  { unfold levelUp.
    assert (heapAll Q (update_room a (modify_state (advanceLevel cfg)) w1))
      by all_peel.
    case_match; all_peel. }
  repeat case_match; all_peel.
Qed.

Lemma heapAll_socket_disconnect id w :
  heapAll Q w → heapAll Q (socket_disconnect cfg id w).1.
Proof.
  intros Hw. unfold socket_disconnect, on_disconnect, leaveRoom.
  repeat case_match; all_peel.
Qed.

Lemma heapAll_joinTail ext rid w :
  heapAll Q w → heapAll Q (joinTail cfg ext rid w).
Proof.
  intros Hw. unfold joinTail.
  repeat case_match; try apply heapAll_startGame; all_peel.
Qed.

Lemma heapAll_armJoinTimeout rid w :
  heapAll Q w → heapAll Q (armJoinTimeout rid w).
Proof.
  intros Hw. unfold armJoinTimeout. cbn [setTimeout].
  case_match; all_peel.
Qed.

Lemma heapAll_on_createRoom ext id username newId w :
  heapAll Q w → heapAll Q (on_createRoom cfg ext id username newId w).
Proof.
  intros Hw. unfold on_createRoom.
  repeat case_match;
    try apply heapAll_armJoinTimeout; try apply heapAll_startGame; all_peel.
Qed.

Lemma heapAll_on_joinRoom ext id rid username w :
  heapAll Q w → heapAll Q (on_joinRoom cfg ext id rid username w).
Proof.
  intros Hw. unfold on_joinRoom.
  destruct (room_at w rid) as [[a0 room0]|].
  - case_match; [all_peel|].
    assert (heapAll Q (evictOld cfg id username w).1) as Hev.
    { unfold evictOld. repeat case_match; try done.
      by apply heapAll_socket_disconnect. }
    destruct (evictOld cfg id username w) as [w1 thrown]. simpl in Hev.
    destruct thrown; [done|].
    repeat case_match; try apply heapAll_joinTail; all_peel.
  - destruct (draft cfg); [all_peel|].
    apply heapAll_joinTail.
    case_match; [apply heapAll_armJoinTimeout|]; all_peel.
Qed.

Lemma heapAll_step e w : heapAll Q w → heapAll Q (step cfg e w).
Proof.
  intros Hw.
  destruct e as [id|id username newId ext|id rid username ext
                |id rid type text ext|id|h ext]; cbn [step].
  - unfold on_connection. repeat case_match; all_peel.
  - case_match; [|done]. by apply heapAll_on_createRoom.
  - case_match; [|done]. by apply heapAll_on_joinRoom.
  - case_match; [|done]. by apply heapAll_on_action.
  - by apply heapAll_socket_disconnect.
  - unfold fire. destruct (timers w !! h) as [[rid a|rid]|]; [| |done].
    + apply heapAll_gmPass. all_peel.
    + unfold joinTimeout. repeat case_match; all_peel.
Qed.

Lemma heapAll_run es w : heapAll Q w → heapAll Q (run cfg es w).
Proof.
  revert w. induction es as [|e es IH]; intros w Hw; [done|].
  apply IH. by apply heapAll_step.
Qed.

Lemma heapAll_reachable w : reachable cfg w → heapAll Q w.
Proof. intros [es ->]. apply heapAll_run. constructor. Qed.

End RoomInvariant.

(* ===================================================================== *)
(** ** Turn numbers are seat numbers *)
(* ===================================================================== *)

Lemma turnOk_reachable cfg w : reachable cfg w → heapAll turnOk w.
Proof.
  apply heapAll_reachable; unfold turnOk.
  - intros id. simpl. split; [lia|done].
  - by intros r ps.
  - by intros r h.
  - intros r [Hl _]. by split.
  - intros r [Hl _]. split; [done|]. simpl. lia.
  - intros r [Hl Ht]. split; [done|]. simpl.
    destruct (turn (state r)); simpl; lia.
  - intros r [Hl Ht]. unfold modify_state. cbn [state set_state].
    rewrite advanceLevel_level.
    split; [pose proof (increment_ge (level (state r))); lia|].
    unfold advanceLevel. by destruct (draft cfg).
  - intros r ext isInitial text st1 calls [Hl Ht] Hgm.
    pose proof (getGmResponse_level cfg ext (state r) isInitial) as Hlevel.
    pose proof (getGmResponse_turn cfg ext (state r) isInitial) as Hturn.
    rewrite Hgm in Hlevel, Hturn. simpl in Hlevel, Hturn.
    cbn [state set_state push_history set_history level turn].
    by rewrite Hlevel, Hturn.
  - intros r ext line text st1 calls [Hl Ht] Hgm.
    pose proof (getGmResponse_level cfg ext
                  (push_history line (state r)) false) as Hlevel.
    pose proof (getGmResponse_turn cfg ext
                  (push_history line (state r)) false) as Hturn.
    rewrite Hgm in Hlevel, Hturn. simpl in Hlevel, Hturn.
    cbn [state set_state push_history set_history level turn].
    by rewrite Hlevel, Hturn.
Qed.

(** X1.  In every state the server can reach, the level of every room
    is at least 1 and a numeric turn is at least 1.  Hence, outside debug
    mode, an action sent by a connection that has no seat in the room is
    always rejected with the not-your-turn error and changes nothing. *)
Theorem unseated_action_is_rejected (cfg : Config) (w : World) :
  reachable cfg w →
  (∀ a room, heap w !! a = Some room → turnOk room) ∧
  (DEBUG_MODE cfg = false →
   ∀ ext id rid type text a room,
     room_at w rid = Some (a, room) →
     id ∉ players room →
     rejected id w (on_action cfg ext id rid type text w)).
Proof.
  intros Hreach. pose proof (turnOk_reachable cfg w Hreach) as Hall.
  split.
  - intros a room Ha. by eapply (Forall_lookup_1 _ _ _ _ Hall).
  - intros Hdebug ext id rid type text a room Hroom Hout.
    destruct (room_at_heap _ _ _ _ Hroom) as [_ Ha].
    destruct (Forall_lookup_1 _ _ _ _ Hall Ha) as [_ Hturn].
    unfold rejected, on_action. rewrite Hroom, Hdebug.
    assert (findIndex id (players room) = -1) as ->.
    { destruct (decide (findIndex id (players room) = -1)); [done|].
      exfalso. by apply Hout, findIndex_found. }
    destruct (turn (state room)) as [|n]; [done|]. unfold turnIs.
    assert ((n =? -1 + 1) = false) as -> by (apply Z.eqb_neq; lia). done.
Qed.

Lemma unseated_action_is_rejected_witness :
  reachable standardConfig lobby ∧
  DEBUG_MODE standardConfig = false ∧
  room_at lobby hall = Some (0%nat, roomObject lobby 0) ∧
  (dan ∉ players (roomObject lobby 0)) ∧
  rejected dan lobby
    (on_action standardConfig outage dan hall (js "use") (js "дверь") lobby).
Proof.
  assert (reachable standardConfig lobby) as Hreach
    by (eexists; reflexivity).
  assert (room_at lobby hall = Some (0%nat, roomObject lobby 0)) as Hroom
    by (vm_compute; reflexivity).
  assert (dan ∉ players (roomObject lobby 0)) as Hout
    by (apply (bool_decide_unpack _); vm_compute; exact I).
  split; [exact Hreach|]. split; [reflexivity|].
  split; [exact Hroom|]. split; [exact Hout|].
  destruct (unseated_action_is_rejected standardConfig lobby Hreach)
    as [_ Hrej].
  apply (Hrej eq_refl outage dan hall (js "use") (js "дверь") 0%nat _
           Hroom Hout).
Defined.

(* ===================================================================== *)
(** ** The summarizer keeps the narration context bounded *)
(* ===================================================================== *)

